(** * RedisSegmentClaimManager: distributed segment claims over Redis

    A shallow embedding of [src/distributed/redisSegmentClaimManager.ts]:
    the key namer, the claim / extend / release protocol on the Redis
    keyspace, the completion records, and the pool of subscriber
    connections with its disposal flag.

    Conventions of the embedding.
    - JavaScript numbers that the manager handles (indices, millisecond
      clocks and durations) are integers and are modelled by [Z].
    - An [async] method is a computation in a state-and-exception monad:
      it maps a state to an outcome ([Return] or [Throw]) and a new state.
      A rejected promise is a [Throw].
    - The methods that talk to the keyspace run on the state of the Redis
      server, which all workers share; the methods that manage subscriber
      connections run on the state of one manager and its clients.
    - [Date.now()] is the caller's clock and is passed as an argument; the
      expiry of keys follows the server's clock.
    - Redis, its Lua scripting and the client library are not part of the
      repository. They are modelled as far as the manager uses them, with
      the behaviour that their documentation gives. *)

From Stdlib Require Import Ascii DecimalString DecimalZ DecimalPos.
From stdpp Require Import gmap strings list fin_maps.

Open Scope Z_scope.

(** ** Numbers as text *)

(** [`${n}`] and [n.toString()] for an integer [n]: decimal digits with a
    leading minus sign for negative numbers. *)
Definition string_of_Z (z : Z) : string :=
  NilZero.string_of_int (Z.to_int z).

(** Reading a decimal numeral back (Lua's [tonumber], and the way the
    server reads the argument of [PX]). *)
Definition Z_of_string (s : string) : option Z :=
  Z.of_int <$> NilZero.int_of_string s.

(** ** Key namer *)

Module KeyNamer.

Definition lockPrefix : string := "transcoder:segment:lock:".
Definition statusPrefix : string := "transcoder:segment:status:".
Definition completedPrefix : string := "transcoder:segment:completed:".
Definition channelPrefix : string := "transcoder:segment:complete:".

(** The five coordinates of a segment, in the order of the methods'
    parameters. *)
Record identity := Identity {
  fileId : string;
  streamType : string;
  quality : string;
  streamIndex : Z;
  segmentIndex : Z
}.

(** [`${fileId}:${streamType}:${quality}:${streamIndex}:${segmentIndex}`] *)
Definition getSegmentKey (fileId streamType quality : string)
    (streamIndex segmentIndex : Z) : string :=
  fileId +:+ ":" +:+ streamType +:+ ":" +:+ quality +:+ ":"
    +:+ string_of_Z streamIndex +:+ ":" +:+ string_of_Z segmentIndex.

(** The delimiter does not occur in the string. *)
Fixpoint colon_free (s : string) : bool :=
  match s with
  | EmptyString => true
  | String c r => negb (Ascii.eqb c ":"%char) && colon_free r
  end.

End KeyNamer.

(** ** Asynchronous computations *)

(** What a rejected promise carries. *)
Inductive error :=
| ReplyError (msg : string)    (* an error reply of the server *)
| ClientClosedError            (* the client is closed *)
| TransportError (n : nat).    (* a failure of the connection *)

Inductive outcome (A : Type) :=
| Return (a : A)
| Throw (e : error).
Arguments Return {A} a.
Arguments Throw {A} e.

(** A computation over a state [S]: the state survives an exception. *)
Definition M (S A : Type) : Type := S → outcome A * S.

#[global] Instance M_ret {S} : MRet (M S) := λ A a s, (Return a, s).

#[global] Instance M_bind {S} : MBind (M S) := λ A B k m s,
  match m s with
  | (Return a, s') => k a s'
  | (Throw e, s') => (Throw e, s')
  end.

Definition throw {S A} (e : error) : M S A := λ s, (Throw e, s).

(** [try { body } catch (e) { handler e }] *)
Definition try_catch {S A} (body : M S A) (handler : error → M S A) : M S A :=
  λ s, match body s with
       | (Return a, s') => (Return a, s')
       | (Throw e, s') => handler e s'
       end.

(** [try { body } finally { fin }] *)
Definition try_finally {S A} (body : M S A) (fin : M S unit) : M S A :=
  λ s, match body s with
       | (r, s') => match fin s' with
                    | (Return _, s'') => (r, s'')
                    | (Throw e, s'') => (Throw e, s'')
                    end
       end.

(** [try { body } catch { }]: errors are ignored. *)
Definition ignore_errors {S} (body : M S unit) : M S unit :=
  try_catch body (λ _, mret tt).

Definition gets {S A} (f : S → A) : M S A := λ s, (Return (f s), s).
Definition modify {S} (f : S → S) : M S unit := λ s, (Return tt, f s).

(** [await Promise.all(xs.map(f))]: the calls take effect in the order of
    [xs]. The manager maps a function that never rejects. *)
Fixpoint for_each {S A} (f : A → M S unit) (xs : list A) : M S unit :=
  match xs with
  | [] => mret tt
  | x :: xs' => f x;; for_each f xs'
  end.

(** ** The Redis server, as the manager uses it *)

Module Redis.

(** Values of a JSON object's fields. *)
Inductive jval :=
| JStr (s : string)
| JNum (n : Z).

#[global] Instance jval_eq_dec : EqDecision jval.
Proof. solve_decision. Defined.

(** What a key holds. The manager stores two kinds of strings: plain
    words (['processing'], ['completed'], ['true']) and the JSON text of
    an object. A JSON object is kept as the finite map of its fields,
    which is what [JSON.stringify], [cjson.decode] and [cjson.encode]
    agree on. *)
Inductive rvalue :=
| VText (s : string)
| VObj (o : gmap string jval).

#[global] Instance rvalue_eq_dec : EqDecision rvalue.
Proof. solve_decision. Defined.

(** A key with its expiry, in milliseconds of the server's clock. *)
Record entry := Entry { e_val : rvalue; e_deadline : Z }.

Inductive script := ExtendScript | ReleaseScript.

Inductive command :=
| CmdSet (key : string) (v : rvalue) (nx : bool) (px : Z)
| CmdGet (key : string)
| CmdEval (s : script) (keys : list string) (args : list string)
| CmdPublish (channel message : string).

Inductive reply :=
| RNil
| ROk
| RInt (n : Z)
| RBulk (v : rvalue)
| RError (msg : string).

(** The keyspace, the server's clock, and the commands that clients have
    sent with their replies, latest first. *)
Record server := Server {
  db : gmap string entry;
  clock : Z;
  log : list (command * reply)
}.

(** A key is visible until the clock has passed its deadline. *)
Definition live (s : server) (k : string) : option rvalue :=
  match db s !! k with
  | Some e => if clock s <=? e_deadline e then Some (e_val e) else None
  | None => None
  end.

(** Remaining time to live of a visible key. *)
Definition pttl (s : server) (k : string) : option Z :=
  match db s !! k with
  | Some e => if clock s <=? e_deadline e then Some (e_deadline e - clock s)
              else None
  | None => None
  end.

(** Time passes on the server. *)
Definition advance (d : Z) (s : server) : server :=
  {| db := db s; clock := clock s + d; log := log s |}.

Definition with_db (f : gmap string entry → gmap string entry)
    (s : server) : server :=
  {| db := f (db s); clock := clock s; log := log s |}.

Definition logged (c : command) (r : reply) : M server unit :=
  modify (λ s, {| db := db s; clock := clock s; log := (c, r) :: log s |}).

Definition invalid_expire : string :=
  "ERR invalid expire time in 'set' command".

(** *** Commands as a script calls them ([redis.call]) *)

Definition call_get (k : string) : M server (option rvalue) :=
  gets (λ s, live s k).

(** [SET k v PX px]; [SET k v NX PX px] when [nx]. The reply is [OK], or
    nil when [NX] finds the key. A non-positive expiry is refused.  *)
Definition call_set (k : string) (v : rvalue) (nx : bool) (px : Z)
    : M server (option string) :=
  if px <=? 0 then throw (ReplyError invalid_expire)
  else
    cur ← call_get k;
    if nx && bool_decide (is_Some cur) then mret None
    else
      now ← gets clock;
      modify (with_db (insert k (Entry v (now + px))));;
      mret (Some "OK"%string).

(** [DEL k]: the number of keys removed. *)
Definition call_del (k : string) : M server Z :=
  cur ← call_get k;
  match cur with
  | Some _ => modify (with_db (delete k));; mret 1
  | None => mret 0
  end.

End Redis.

(** ** The two Lua scripts of an acquired claim *)

Module Lua.
Import Redis.

Definition script_error : string := "ERR Error running script".

(** [KEYS[i+1]] and [ARGV[i+1]]; the manager always passes them. *)
Definition nth_arg (l : list string) (i : nat) : M server string :=
  match l !! i with
  | Some x => mret x
  | None => throw (ReplyError script_error)
  end.

(** [cjson.decode] followed by a field access: the text must be a JSON
    object. A plain word is either no JSON at all or a JSON scalar that
    cannot be indexed, and the script stops with an error. *)
Definition cjson_decode (v : rvalue) : M server (gmap string jval) :=
  match v with
  | VObj o => mret o
  | VText _ => throw (ReplyError script_error)
  end.

Definition cjson_encode (o : gmap string jval) : rvalue := VObj o.

(** [redis.call('set', k, v, 'PX', px)] with [px] given as text. *)
Definition call_set_px (k : string) (v : rvalue) (px : string)
    : M server unit :=
  match Z_of_string px with
  | Some n => call_set k v false n;; mret tt
  | None => throw (ReplyError invalid_expire)
  end.

(** [[
    local lock = redis.call('get', KEYS[1])
    if lock then
        local data = cjson.decode(lock)
        if data.workerId == ARGV[1] then
            local newExpiry = tonumber(ARGV[2])
            data.expiresAt = newExpiry
            redis.call('set', KEYS[1], cjson.encode(data), 'PX', ARGV[3])
            return 1
        end
    end
    return 0
    ]] *)
Definition extend_script (KEYS ARGV : list string) : M server Z :=
  key ← nth_arg KEYS 0;
  lock ← call_get key;
  match lock with
  | Some text =>
      data ← cjson_decode text;
      owner ← nth_arg ARGV 0;
      if bool_decide (data !! "workerId"%string = Some (JStr owner)) then
        arg ← nth_arg ARGV 1;
        let newExpiry := Z_of_string arg in
        px ← nth_arg ARGV 2;
        let data' := match newExpiry with
                     | Some n => <["expiresAt"%string := JNum n]> data
                     | None => delete "expiresAt"%string data
                     end in
        call_set_px key (cjson_encode data') px;;
        mret 1
      else mret 0
  | None => mret 0
  end.

(** [[
    local lock = redis.call('get', KEYS[1])
    if lock then
        local data = cjson.decode(lock)
        if data.workerId == ARGV[1] then
            return redis.call('del', KEYS[1])
        end
    end
    return 0
    ]] *)
Definition release_script (KEYS ARGV : list string) : M server Z :=
  key ← nth_arg KEYS 0;
  lock ← call_get key;
  match lock with
  | Some text =>
      data ← cjson_decode text;
      owner ← nth_arg ARGV 0;
      if bool_decide (data !! "workerId"%string = Some (JStr owner)) then
        call_del key
      else mret 0
  | None => mret 0
  end.

Definition run (sc : script) : list string → list string → M server Z :=
  match sc with
  | ExtendScript => extend_script
  | ReleaseScript => release_script
  end.

End Lua.

(** ** The client's commands on the main connection ([this.redis]) *)

Module Client.
Import Redis.

Definition reply_of_error (e : error) : reply :=
  match e with
  | ReplyError msg => RError msg
  | ClientClosedError => RError "closed"
  | TransportError _ => RError "transport"
  end.

(** Run a command on the server and record it with its reply. *)
Definition command_ {A} (c : command) (to_reply : A → reply)
    (body : M server A) : M server A :=
  λ s, match body s with
       | (Return a, s') => (Return a, snd (logged c (to_reply a) s'))
       | (Throw e, s') => (Throw e, snd (logged c (reply_of_error e) s'))
       end.

(** [redis.set(key, value, { NX, PX })]: ['OK'] or [null]. *)
Definition set (key : string) (value : rvalue) (nx : bool) (px : Z)
    : M server (option string) :=
  command_ (CmdSet key value nx px)
           (λ r, if r is Some _ then ROk else RNil)
           (call_set key value nx px).

(** [redis.get(key)]: the value or [null]. *)
Definition get (key : string) : M server (option rvalue) :=
  command_ (CmdGet key) (λ r, if r is Some v then RBulk v else RNil)
           (call_get key).

(** [redis.eval(script, { keys, arguments })]: the script runs on the
    server without interleaving. *)
Definition eval (sc : script) (keys args : list string) : M server Z :=
  command_ (CmdEval sc keys args) RInt (Lua.run sc keys args).

(** [redis.publish(channel, message)] *)
Definition publish (channel message : string) : M server unit :=
  command_ (CmdPublish channel message) (λ _, RInt 0) (mret tt).

End Client.

(** ** Claims ([./interfaces]) *)

Module Interfaces.
Import Redis.

(** Modelled from the spec: the interface [SegmentClaim], declared in
    [./interfaces], which is not among the sources. The spec's Claim has
    the fields [acquired], [segmentKey], the owner's id, [expiresAt], and
    the operations [extend() -> bool] and [release() -> void]; the names
    and types are those of the object literals in [createFailedClaim] and
    [createSuccessfulClaim]. [extend] reads the caller's clock
    ([Date.now()]), which is its argument here. *)
Record SegmentClaim := {
  acquired : bool;
  segmentKey : string;
  workerId : string;
  expiresAt : Z;
  extend : Z → M server bool;
  release : M server unit
}.

End Interfaces.

(** ** The manager: claims and completion records *)

Module Manager.
Import Redis KeyNamer.

(** The configuration held by an instance. The connection [this.redis] is
    the server state that the methods thread. *)
Record manager := {
  workerId : string;
  defaultTTL : Z;
  completedSegmentTTL : Z
}.

Definition week_ms : Z := 7 * 24 * 60 * 60 * 1000.

(** [constructor (redis, workerId, defaultTTL = 60000, completedSegmentTTL?)]
    with [this.completedSegmentTTL = completedSegmentTTL || 7 days]. *)
Definition new_manager (workerId : string)
    (defaultTTL completedSegmentTTL : option Z) : manager :=
  {| workerId := workerId;
     defaultTTL := default 60000 defaultTTL;
     completedSegmentTTL :=
       match completedSegmentTTL with
       | Some t => if t =? 0 then week_ms else t
       | None => week_ms
       end |}.

(** [JSON.stringify({ workerId, expiresAt })] *)
Definition lock_record (workerId : string) (expiresAt : Z) : rvalue :=
  VObj (<["workerId"%string := JStr workerId]>
        (<["expiresAt"%string := JNum expiresAt]> ∅)).

Definition createFailedClaim (m : manager) (segmentKey : string)
    : Interfaces.SegmentClaim :=
  {| Interfaces.acquired := false;
     Interfaces.segmentKey := segmentKey;
     Interfaces.workerId := workerId m;
     Interfaces.expiresAt := 0;
     Interfaces.extend := λ _, mret false;
     Interfaces.release := mret tt |}.

Definition createSuccessfulClaim (m : manager)
    (segmentKey lockKey : string) (expiresAt : Z)
    : Interfaces.SegmentClaim :=
  {| Interfaces.acquired := true;
     Interfaces.segmentKey := segmentKey;
     Interfaces.workerId := workerId m;
     Interfaces.expiresAt := expiresAt;
     Interfaces.extend := λ now,
       let newExpiresAt := now + defaultTTL m in
       result ← Client.eval ExtendScript [lockKey]
                  [workerId m; string_of_Z newExpiresAt;
                   string_of_Z (defaultTTL m)];
       mret (bool_decide (result = 1));
     Interfaces.release :=
       Client.eval ReleaseScript [lockKey] [workerId m];;
       mret tt |}.

(** [claimSegment]; [now] is the reading of [Date.now()]. *)
Definition claimSegment (m : manager) (now : Z)
    (fileId streamType quality : string) (streamIndex segmentIndex : Z)
    : M server Interfaces.SegmentClaim :=
  let segmentKey :=
    getSegmentKey fileId streamType quality streamIndex segmentIndex in
  let lockKey := lockPrefix +:+ segmentKey in
  let expiresAt := now + defaultTTL m in
  acquired ← Client.set lockKey (lock_record (workerId m) expiresAt)
                        true (defaultTTL m);
  if acquired is None then mret (createFailedClaim m segmentKey)
  else
    Client.set (statusPrefix +:+ segmentKey) (VText "processing")
               false (defaultTTL m * 2);;
    mret (createSuccessfulClaim m segmentKey lockKey expiresAt).

Definition isSegmentCompleted (m : manager)
    (fileId streamType quality : string) (streamIndex segmentIndex : Z)
    : M server bool :=
  let segmentKey :=
    getSegmentKey fileId streamType quality streamIndex segmentIndex in
  completed ← Client.get (completedPrefix +:+ segmentKey);
  mret (bool_decide (completed = Some (VText "true"))).

Definition markSegmentCompleted (m : manager)
    (fileId streamType quality : string) (streamIndex segmentIndex : Z)
    : M server unit :=
  let segmentKey :=
    getSegmentKey fileId streamType quality streamIndex segmentIndex in
  Client.set (completedPrefix +:+ segmentKey) (VText "true")
             false (completedSegmentTTL m);;
  Client.set (statusPrefix +:+ segmentKey) (VText "completed")
             false (completedSegmentTTL m);;
  mret tt.

Definition getSegmentStatus (m : manager)
    (fileId streamType quality : string) (streamIndex segmentIndex : Z)
    : M server (option rvalue) :=
  let segmentKey :=
    getSegmentKey fileId streamType quality streamIndex segmentIndex in
  Client.get (statusPrefix +:+ segmentKey).

Definition publishSegmentComplete (m : manager)
    (fileId streamType quality : string) (streamIndex segmentIndex : Z)
    : M server unit :=
  let segmentKey :=
    getSegmentKey fileId streamType quality streamIndex segmentIndex in
  let channel := channelPrefix +:+ segmentKey in
  Client.publish channel "completed".

End Manager.

(** ** Subscriber connections and their pool *)

Module Subscribers.
Import KeyNamer.

(** A subscriber client ([redis.duplicate()]) is named by a number; the
    objects themselves live in the table [connections], so that two
    references to one client see the same [isOpen]. *)
Definition handle := nat.

(** The caller's [callback: () => void], named by a number; calling it is
    the event [EvCallback]. *)
Definition callback := nat.

(** A message listener: the callbacks it calls on a message. *)
Definition listener := string → list callback.

(** Calls made on the clients and by the listeners, latest first. *)
Inductive event :=
| EvConnect (h : handle)
| EvDisconnect (h : handle)
| EvSubscribe (h : handle) (channel : string)
| EvUnsubscribe (h : handle) (channel : string)
| EvCallback (cb : callback)
| EvConsoleError.

#[global] Instance event_eq_dec : EqDecision event.
Proof. solve_decision. Defined.

Record connection := {
  isOpen : bool;
  listeners : list (string * listener)
}.

(** The clients (with the failures that the transport is going to
    produce, one entry per call that goes to the network) and the two
    fields of the manager: [subscriberPool] and [disposed]. *)
Record state := {
  connections : gmap handle connection;
  next_handle : handle;
  faults : list (option error);
  trace : list event;
  subscriberPool : list handle;
  disposed : bool
}.

Definition poolSize : nat := 5.

Definition with_connections (f : gmap handle connection → gmap handle connection)
    (s : state) : state :=
  {| connections := f (connections s); next_handle := next_handle s;
     faults := faults s; trace := trace s;
     subscriberPool := subscriberPool s; disposed := disposed s |}.

Definition with_pool (f : list handle → list handle) (s : state) : state :=
  {| connections := connections s; next_handle := next_handle s;
     faults := faults s; trace := trace s;
     subscriberPool := f (subscriberPool s); disposed := disposed s |}.

Definition with_disposed (b : bool) (s : state) : state :=
  {| connections := connections s; next_handle := next_handle s;
     faults := faults s; trace := trace s;
     subscriberPool := subscriberPool s; disposed := b |}.

Definition emit (e : event) : M state unit :=
  modify (λ s,
    {| connections := connections s; next_handle := next_handle s;
       faults := faults s; trace := e :: trace s;
       subscriberPool := subscriberPool s; disposed := disposed s |}).

(** The next call to the network fails if the transport says so. *)
Definition network : M state unit :=
  λ s, match faults s with
       | Some e :: rest =>
           (Throw e,
            {| connections := connections s; next_handle := next_handle s;
               faults := rest; trace := trace s;
               subscriberPool := subscriberPool s; disposed := disposed s |})
       | None :: rest =>
           (Return tt,
            {| connections := connections s; next_handle := next_handle s;
               faults := rest; trace := trace s;
               subscriberPool := subscriberPool s; disposed := disposed s |})
       | [] => (Return tt, s)
       end.

(** *** The client library *)

(** [subscriber.isOpen] *)
Definition is_open_in (s : state) (h : handle) : bool :=
  match connections s !! h with
  | Some c => isOpen c
  | None => false
  end.

Definition is_open (h : handle) : M state bool :=
  gets (λ s, is_open_in s h).

Definition set_open (h : handle) (b : bool) : M state unit :=
  modify (with_connections (λ cs,
    match cs !! h with
    | Some c => <[h := {| isOpen := b; listeners := listeners c |}]> cs
    | None => <[h := {| isOpen := b; listeners := [] |}]> cs
    end)).

(** [redis.duplicate()]: a new client, not yet connected. *)
Definition duplicate : M state handle :=
  λ s, let h := next_handle s in
       (Return h,
        {| connections := <[h := {| isOpen := false; listeners := [] |}]>
                            (connections s);
           next_handle := S h;
           faults := faults s; trace := trace s;
           subscriberPool := subscriberPool s; disposed := disposed s |}).

(** [client.connect()] *)
Definition connect (h : handle) : M state unit :=
  emit (EvConnect h);;
  network;;
  set_open h true.

(** [client.disconnect()]: a closed client refuses; an open one is closed
    at once, whatever happens to the rest of the teardown. *)
Definition disconnect (h : handle) : M state unit :=
  emit (EvDisconnect h);;
  opened ← is_open h;
  if (opened : bool) then (set_open h false;; network)
  else throw ClientClosedError.

(** [client.subscribe(channel, listener)] *)
Definition subscribe (h : handle) (channel : string) (l : listener)
    : M state unit :=
  emit (EvSubscribe h channel);;
  opened ← is_open h;
  if (opened : bool) then
    (network;;
     modify (with_connections (alter (λ c,
       {| isOpen := isOpen c;
          listeners := listeners c ++ [(channel, l)] |}) h)))
  else throw ClientClosedError.

(** [client.unsubscribe(channel)] *)
Definition unsubscribe (h : handle) (channel : string) : M state unit :=
  emit (EvUnsubscribe h channel);;
  opened ← is_open h;
  if (opened : bool) then
    (network;;
     modify (with_connections (alter (λ c,
       {| isOpen := isOpen c;
          listeners := filter (λ cl, cl.1 ≠ channel) (listeners c) |}) h)))
  else throw ClientClosedError.

(** [console.error(...)] *)
Definition console_error : M state unit := emit EvConsoleError.

(** The callbacks that run when [message] arrives on [channel] at the
    client [h]. *)
Definition invoked (s : state) (h : handle) (channel message : string)
    : list callback :=
  match connections s !! h with
  | Some c =>
      if isOpen c then
        mjoin ((λ cl : string * listener,
                  if bool_decide (cl.1 = channel) then cl.2 message else [])
               <$> listeners c)
      else []
  | None => []
  end.

(** A message arrives: the listeners run. *)
Definition deliver (h : handle) (channel message : string) : M state unit :=
  cbs ← gets (λ s, invoked s h channel message);
  for_each (λ cb, emit (EvCallback cb)) cbs.

(** The connection of [h] is lost. *)
Definition connection_lost (h : handle) : M state unit :=
  opened ← is_open h;
  if (opened : bool) then set_open h false else mret tt.

End Subscribers.

(** ** The manager: the pool of idle subscribers and its disposal *)

Module ManagerPool.
Import KeyNamer Subscribers.

(** [this.subscriberPool.pop()] *)
Definition pool_pop : M state (option handle) :=
  λ s, (Return (last (subscriberPool s)), with_pool (@removelast handle) s).

(** [this.subscriberPool.push(subscriber)] *)
Definition pool_push (h : handle) : M state unit :=
  modify (with_pool (λ pool, pool ++ [h])).

Definition newSubscriber : M state handle :=
  h ← duplicate;
  connect h;;
  mret h.

Definition getSubscriber : M state handle :=
  subscriber ← pool_pop;
  match subscriber with
  | Some h =>
      opened ← is_open h;
      if (opened : bool) then mret h else newSubscriber
  | None => newSubscriber
  end.

Definition releaseSubscriber (subscriber : handle) : M state unit :=
  isDisposed ← gets disposed;
  opened ← is_open subscriber;
  if (isDisposed : bool) || negb opened then
    ignore_errors (disconnect subscriber)
  else
    len ← gets (λ s, length (subscriberPool s));
    if (len <? poolSize)%nat then pool_push subscriber
    else ignore_errors (disconnect subscriber).

(** [(message) => { if (message === 'completed') callback(); }] *)
Definition completion_listener (cb : callback) : listener :=
  λ message, if bool_decide (message = "completed"%string) then [cb] else [].

(** The function that [subscribeToSegmentComplete] returns. *)
Definition unsubscribeFn (subscriber : handle) (channel : string)
    : M state unit :=
  try_finally
    (try_catch
       (opened ← is_open subscriber;
        if (opened : bool) then unsubscribe subscriber channel else mret tt)
       (λ _, console_error))
    (releaseSubscriber subscriber).

Definition subscribeToSegmentComplete
    (fileId streamType quality : string) (streamIndex segmentIndex : Z)
    (cb : callback) : M state (M state unit) :=
  let segmentKey :=
    getSegmentKey fileId streamType quality streamIndex segmentIndex in
  let channel := channelPrefix +:+ segmentKey in
  subscriber ← getSubscriber;
  try_catch
    (subscribe subscriber channel (completion_listener cb))
    (λ error, releaseSubscriber subscriber;; throw error);;
  mret (unsubscribeFn subscriber channel).

(** The function that [dispose] maps over the pooled subscribers:
    [async (subscriber) => { try { if (subscriber.isOpen) await
    subscriber.disconnect(); } catch { } }] *)
Definition dispose_one (subscriber : handle) : M state unit :=
  ignore_errors
    (opened ← is_open subscriber;
     if (opened : bool) then disconnect subscriber else mret tt).

(** Every call of the mapped function runs up to its first [await] before
    the next one starts, so the clients are closed in the order of the
    pool. *)
Definition dispose : M state unit :=
  modify (with_disposed true);;
  subscribers ← gets subscriberPool;
  modify (with_pool (λ _, []));;
  for_each dispose_one subscribers.

(** A manager just constructed, with the failures its transport is going
    to produce. *)
Definition fresh (fs : list (option error)) : state :=
  {| connections := ∅; next_handle := 0%nat; faults := fs; trace := [];
     subscriberPool := []; disposed := false |}.

(** What can happen to the pool: the manager's methods, the function
    handed out by a subscription, and the events of the connections. *)
Inductive op :=
| GetSubscriber
| ReleaseSubscriber (h : handle)
| SubscribeToSegmentComplete (i : identity) (cb : callback)
| Unsubscribe (h : handle) (channel : string)
| Dispose
| Deliver (h : handle) (channel message : string)
| ConnectionLost (h : handle).

Definition run_op (o : op) (s : state) : state :=
  match o with
  | GetSubscriber => (getSubscriber s).2
  | ReleaseSubscriber h => (releaseSubscriber h s).2
  | SubscribeToSegmentComplete i cb =>
      (subscribeToSegmentComplete (fileId i) (streamType i) (quality i)
         (streamIndex i) (segmentIndex i) cb s).2
  | Unsubscribe h channel => (unsubscribeFn h channel s).2
  | Dispose => (dispose s).2
  | Deliver h channel message => (deliver h channel message s).2
  | ConnectionLost h => (connection_lost h s).2
  end.

Definition run_ops (os : list op) (s : state) : state :=
  foldl (λ st o, run_op o st) s os.

End ManagerPool.

(** ** Notions used in the statements *)

Module Ownership.
Import Redis.

(** The lock record at [k] is visible and names [w] as its owner. *)
Definition held_by (s : server) (k w : string) : Prop :=
  ∃ o, live s k = Some (VObj o) ∧ o !! "workerId"%string = Some (JStr w).

(** There is no lock record at [k], or one whose owner is not [w]. *)
Definition not_held_by (s : server) (k w : string) : Prop :=
  live s k = None
  ∨ ∃ o, live s k = Some (VObj o) ∧ o !! "workerId"%string ≠ Some (JStr w).

(** The keyspace and the clock are the same in both states. *)
Definition same_data (s s' : server) : Prop :=
  db s' = db s ∧ clock s' = clock s.

(** The latest command that the server has seen, with its reply. *)
Definition last_command (s : server) : option (command * reply) :=
  head (log s).

(** Whatever is stored under a lock key is a lock record with an owner. *)
Definition lock_keys_hold_records (s : server) : Prop :=
  ∀ key e, db s !! (KeyNamer.lockPrefix +:+ key) = Some e →
    ∃ o w, e_val e = VObj o ∧ o !! "workerId"%string = Some (JStr w).

(** What the workers and time do to the server: the methods of any
    manager on any segment, the two operations of any acquired claim, and
    the passing of time. *)
Inductive step :=
| StepClaim (m : Manager.manager) (now : Z) (i : KeyNamer.identity)
| StepExtend (m : Manager.manager) (expiresAt now : Z) (i : KeyNamer.identity)
| StepRelease (m : Manager.manager) (expiresAt : Z) (i : KeyNamer.identity)
| StepMark (m : Manager.manager) (i : KeyNamer.identity)
| StepIsCompleted (m : Manager.manager) (i : KeyNamer.identity)
| StepStatus (m : Manager.manager) (i : KeyNamer.identity)
| StepPublish (m : Manager.manager) (i : KeyNamer.identity)
| StepTime (d : Z).

Definition acquired_claim (m : Manager.manager) (expiresAt : Z)
    (i : KeyNamer.identity) : Interfaces.SegmentClaim :=
  let segmentKey :=
    KeyNamer.getSegmentKey (KeyNamer.fileId i) (KeyNamer.streamType i)
      (KeyNamer.quality i) (KeyNamer.streamIndex i)
      (KeyNamer.segmentIndex i) in
  Manager.createSuccessfulClaim m segmentKey
    (KeyNamer.lockPrefix +:+ segmentKey) expiresAt.

Definition run_step (st : step) (s : server) : server :=
  match st with
  | StepClaim m now i =>
      (Manager.claimSegment m now (KeyNamer.fileId i) (KeyNamer.streamType i)
         (KeyNamer.quality i) (KeyNamer.streamIndex i)
         (KeyNamer.segmentIndex i) s).2
  | StepExtend m e now i =>
      (Interfaces.extend (acquired_claim m e i) now s).2
  | StepRelease m e i =>
      (Interfaces.release (acquired_claim m e i) s).2
  | StepMark m i =>
      (Manager.markSegmentCompleted m (KeyNamer.fileId i)
         (KeyNamer.streamType i) (KeyNamer.quality i)
         (KeyNamer.streamIndex i) (KeyNamer.segmentIndex i) s).2
  | StepIsCompleted m i =>
      (Manager.isSegmentCompleted m (KeyNamer.fileId i)
         (KeyNamer.streamType i) (KeyNamer.quality i)
         (KeyNamer.streamIndex i) (KeyNamer.segmentIndex i) s).2
  | StepStatus m i =>
      (Manager.getSegmentStatus m (KeyNamer.fileId i)
         (KeyNamer.streamType i) (KeyNamer.quality i)
         (KeyNamer.streamIndex i) (KeyNamer.segmentIndex i) s).2
  | StepPublish m i =>
      (Manager.publishSegmentComplete m (KeyNamer.fileId i)
         (KeyNamer.streamType i) (KeyNamer.quality i)
         (KeyNamer.streamIndex i) (KeyNamer.segmentIndex i) s).2
  | StepTime d => advance d s
  end.

Definition run_steps (sts : list step) (s : server) : server :=
  foldl (λ acc st, run_step st acc) s sts.

End Ownership.

(** ** Notions used in the statements about the pool *)

Module PoolLogic.
Import Subscribers ManagerPool.

(** The manager's two fields. *)
Definition fields (s : state) : list handle * bool :=
  (subscriberPool s, disposed s).

(** A computation that leaves the manager's fields alone. *)
Definition keeps_fields {A} (m : M state A) : Prop :=
  ∀ s, fields (m s).2 = fields s.

(** A computation that preserves a property of the manager's fields. *)
Definition preserves {A} (I : list handle → bool → Prop) (m : M state A)
    : Prop :=
  ∀ s, I (subscriberPool s) (disposed s) →
       I (subscriberPool (m s).2) (disposed (m s).2).

(** The idle pool is within its capacity. *)
Definition bounded (pool : list handle) (_ : bool) : Prop :=
  (length pool ≤ poolSize)%nat.

(** The manager is disposed and its pool is empty. *)
Definition shut (pool : list handle) (isDisposed : bool) : Prop :=
  pool = [] ∧ isDisposed = true.

(** Releasing the handles one after the other. *)
Definition release_all (hs : list handle) (s : state) : state :=
  foldl (λ st h, (releaseSubscriber h st).2) s hs.

Definition is_disconnect (e : event) : bool :=
  match e with
  | EvDisconnect _ => true
  | _ => false
  end.

(** How many times [disconnect] has been called. *)
Definition disconnect_calls (s : state) : nat :=
  length (List.filter is_disconnect (trace s)).

End PoolLogic.

(** ** A running example *)

Module Scenario.
Import Redis Manager.

(** Two workers with the default configuration, and a server that holds
    nothing at time 1000. *)
Definition worker_a : manager := new_manager "worker-a" None None.
Definition worker_b : manager := new_manager "worker-b" None None.

Definition empty_server : server :=
  {| db := ∅; clock := 1000; log := [] |}.

(** The server after [worker_a] has claimed segment 3 of
    [42:video:1080p:0] at time 1000. *)
Definition claimed_server : server :=
  (claimSegment worker_a 1000 "42" "video" "1080p" 0 3 empty_server).2.

Definition claim_a : Interfaces.SegmentClaim :=
  createSuccessfulClaim worker_a
    (KeyNamer.getSegmentKey "42" "video" "1080p" 0 3)
    (KeyNamer.lockPrefix +:+ KeyNamer.getSegmentKey "42" "video" "1080p" 0 3)
    (1000 + defaultTTL worker_a).

(** The channel of that segment. *)
Definition segment_channel : string :=
  KeyNamer.channelPrefix +:+ KeyNamer.getSegmentKey "42" "video" "1080p" 0 3.

(** A new manager that has handed out seven subscribers: the clients 0 to
    6 are open and the pool is empty. *)
Definition seven_handed_out : Subscribers.state :=
  ManagerPool.run_ops (replicate 7 ManagerPool.GetSubscriber)
    (ManagerPool.fresh []).

(** A manager whose pool holds the open clients 0 and 1. *)
Definition two_pooled : Subscribers.state :=
  PoolLogic.release_all [0; 1]%nat
    (ManagerPool.run_ops [ManagerPool.GetSubscriber; ManagerPool.GetSubscriber]
       (ManagerPool.fresh [])).

(** A new manager on a transport that lets the connection through and
    fails the call after it. *)
Definition flaky : Subscribers.state :=
  ManagerPool.fresh [None; Some (TransportError 1)].

End Scenario.

(** * Properties *)

(** ** Numerals *)

Lemma Z_of_string_of_Z (z : Z) : Z_of_string (string_of_Z z) = Some z.
Proof.
  unfold Z_of_string, string_of_Z.
  rewrite NilZero.isi.
  - simpl. f_equal. apply DecimalZ.of_to.
  - destruct z; simpl; try discriminate.
    intros [= H]. by apply Unsigned.to_uint_nonnil in H.
  - destruct z; simpl; try discriminate.
    intros [= H]. by apply Unsigned.to_uint_nonnil in H.
Qed.

Lemma string_of_Z_inj (a b : Z) : string_of_Z a = string_of_Z b → a = b.
Proof.
  intros H. apply (f_equal Z_of_string) in H.
  rewrite !Z_of_string_of_Z in H. congruence.
Qed.

(** ** Key namer *)

Section KeyNamerFacts.
Import KeyNamer.

Lemma colon_free_uint (d : Decimal.uint) :
  colon_free (NilEmpty.string_of_uint d) = true.
Proof. induction d; simpl; auto. Qed.

Lemma colon_free_string_of_Z (z : Z) : colon_free (string_of_Z z) = true.
Proof.
  unfold string_of_Z, NilZero.string_of_int, NilZero.string_of_uint.
  destruct (Z.to_int z) as [d|d]; destruct d; simpl;
    auto using colon_free_uint.
Qed.

(** Two colon-free heads, each followed by a colon, can be told apart. *)
Lemma colon_split (a b x y : string) :
  colon_free a = true → colon_free b = true →
  a +:+ ":" +:+ x = b +:+ ":" +:+ y → a = b ∧ x = y.
Proof.
  revert b. induction a as [|c a IH]; intros [|d b] Ha Hb H; simpl in *.
  - by injection H.
  - injection H as Hc _. subst d. simpl in Hb. discriminate.
  - injection H as Hc _. subst c. simpl in Ha. discriminate.
  - injection H as -> H.
    apply andb_true_iff in Ha as [_ Ha]. apply andb_true_iff in Hb as [_ Hb].
    destruct (IH b Ha Hb H) as [-> ->]. done.
Qed.

(** C5. [getSegmentKey] joins the five fields with [':'] in the order
    fileId, streamType, quality, streamIndex, segmentIndex; and on
    identities whose three textual fields contain no [':'], equal keys
    come from equal fields only. *)
Theorem getSegmentKey_joins_injectively
    (f1 t1 q1 : string) (x1 y1 : Z) (f2 t2 q2 : string) (x2 y2 : Z) :
  colon_free f1 = true → colon_free t1 = true → colon_free q1 = true →
  colon_free f2 = true → colon_free t2 = true → colon_free q2 = true →
  getSegmentKey f1 t1 q1 x1 y1
    = String.concat ":" [f1; t1; q1; string_of_Z x1; string_of_Z y1]
  ∧ (getSegmentKey f1 t1 q1 x1 y1 = getSegmentKey f2 t2 q2 x2 y2 →
     f1 = f2 ∧ t1 = t2 ∧ q1 = q2 ∧ x1 = x2 ∧ y1 = y2).
Proof.
  intros Hf1 Ht1 Hq1 Hf2 Ht2 Hq2. split; [reflexivity|].
  unfold getSegmentKey. intros H.
  apply colon_split in H as [-> H]; [|done..].
  apply colon_split in H as [-> H]; [|done..].
  apply colon_split in H as [-> H]; [|done..].
  apply colon_split in H as [Hx Hy]; [|apply colon_free_string_of_Z..].
  apply string_of_Z_inj in Hx, Hy. by subst.
Qed.

Lemma getSegmentKey_joins_injectively_witness :
  getSegmentKey "42" "video" "1080p" 0 3 = "42:video:1080p:0:3"%string
  ∧ ("42"%string = "42"%string ∧ "video"%string = "video"%string
     ∧ "1080p"%string = "1080p"%string ∧ 0 = 0 ∧ 3 = 3).
Proof.
  destruct (getSegmentKey_joins_injectively
              "42" "video" "1080p" 0 3 "42" "video" "1080p" 0 3)
    as [Hjoin Hinj]; [reflexivity..|].
  split; [exact Hjoin | apply Hinj; reflexivity].
Defined.

(** The three key families do not overlap. *)
Lemma lock_key_not_status (a b : string) :
  lockPrefix +:+ a ≠ statusPrefix +:+ b.
Proof. unfold lockPrefix, statusPrefix. simpl. discriminate. Qed.

Lemma lock_key_not_completed (a b : string) :
  lockPrefix +:+ a ≠ completedPrefix +:+ b.
Proof. unfold lockPrefix, completedPrefix. simpl. discriminate. Qed.

Lemma completed_key_not_status (a b : string) :
  completedPrefix +:+ a ≠ statusPrefix +:+ b.
Proof. unfold completedPrefix, statusPrefix. simpl. discriminate. Qed.

End KeyNamerFacts.

(** ** The commands, run *)

Section CommandFacts.
Import Redis.

Lemma set_nx_taken k v px s :
  0 < px → is_Some (live s k) →
  Client.set k v true px s =
    (Return None,
     {| db := db s; clock := clock s;
        log := (CmdSet k v true px, RNil) :: log s |}).
Proof.
  intros Hpx Hlive.
  unfold Client.set, Client.command_, call_set.
  destruct (Z.leb_spec px 0); [lia|].
  unfold mbind, M_bind, call_get, gets. simpl.
  rewrite bool_decide_true by done. reflexivity.
Qed.

Lemma set_nx_free k v px s :
  0 < px → live s k = None →
  Client.set k v true px s =
    (Return (Some "OK"%string),
     {| db := <[k := Entry v (clock s + px)]> (db s); clock := clock s;
        log := (CmdSet k v true px, ROk) :: log s |}).
Proof.
  intros Hpx Hlive.
  unfold Client.set, Client.command_, call_set.
  destruct (Z.leb_spec px 0); [lia|].
  unfold mbind, M_bind, call_get, gets. simpl.
  rewrite Hlive.
  rewrite bool_decide_false by (by intros [? ?]). reflexivity.
Qed.

Lemma set_plain k v px s :
  0 < px →
  Client.set k v false px s =
    (Return (Some "OK"%string),
     {| db := <[k := Entry v (clock s + px)]> (db s); clock := clock s;
        log := (CmdSet k v false px, ROk) :: log s |}).
Proof.
  intros Hpx.
  unfold Client.set, Client.command_, call_set.
  destruct (Z.leb_spec px 0); [lia|].
  reflexivity.
Qed.

Lemma set_refused k v nx px s :
  px ≤ 0 →
  Client.set k v nx px s =
    (Throw (ReplyError invalid_expire),
     {| db := db s; clock := clock s;
        log := (CmdSet k v nx px, RError invalid_expire) :: log s |}).
Proof.
  intros Hpx.
  unfold Client.set, Client.command_, call_set.
  destruct (Z.leb_spec px 0); [|lia].
  reflexivity.
Qed.

(** The extend script on a lock that the caller owns. *)
Lemma eval_extend_held k w e ttl s o :
  live s k = Some (VObj o) → o !! "workerId"%string = Some (JStr w) →
  0 < ttl →
  Client.eval ExtendScript [k] [w; string_of_Z e; string_of_Z ttl] s =
    (Return 1,
     {| db := <[k := Entry (VObj (<["expiresAt"%string := JNum e]> o))
                       (clock s + ttl)]> (db s);
        clock := clock s;
        log := (CmdEval ExtendScript [k] [w; string_of_Z e; string_of_Z ttl],
                RInt 1) :: log s |}).
Proof.
  intros Hlive Howner Httl.
  unfold Client.eval, Client.command_, Lua.run, Lua.extend_script.
  unfold mbind, M_bind, Lua.nth_arg, call_get, gets, Lua.cjson_decode,
    Lua.call_set_px. simpl.
  rewrite Hlive. simpl. rewrite bool_decide_true by done.
  rewrite !Z_of_string_of_Z. simpl.
  unfold call_set. destruct (Z.leb_spec ttl 0); [lia|].
  reflexivity.
Qed.

Lemma eval_extend_not_held k w args s :
  Ownership.not_held_by s k w →
  Client.eval ExtendScript [k] (w :: args) s =
    (Return 0,
     {| db := db s; clock := clock s;
        log := (CmdEval ExtendScript [k] (w :: args), RInt 0) :: log s |}).
Proof.
  intros [Hnone | (o & Hlive & Hother)];
    unfold Client.eval, Client.command_, Lua.run, Lua.extend_script;
    unfold mbind, M_bind, Lua.nth_arg, call_get, gets, Lua.cjson_decode;
    simpl; rewrite ?Hnone, ?Hlive; simpl; [done|].
  rewrite bool_decide_false by done. reflexivity.
Qed.

(** The release script on a lock that the caller owns. *)
Lemma eval_release_held k w s :
  Ownership.held_by s k w →
  Client.eval ReleaseScript [k] [w] s =
    (Return 1,
     {| db := delete k (db s); clock := clock s;
        log := (CmdEval ReleaseScript [k] [w], RInt 1) :: log s |}).
Proof.
  intros (o & Hlive & Howner).
  unfold Client.eval, Client.command_, Lua.run, Lua.release_script.
  unfold mbind, M_bind, Lua.nth_arg, call_get, gets, Lua.cjson_decode,
    call_del. simpl.
  rewrite Hlive. simpl. rewrite bool_decide_true by done.
  unfold mbind, M_bind, call_get, gets. simpl. rewrite Hlive. reflexivity.
Qed.

Lemma eval_release_not_held k w s :
  Ownership.not_held_by s k w →
  Client.eval ReleaseScript [k] [w] s =
    (Return 0,
     {| db := db s; clock := clock s;
        log := (CmdEval ReleaseScript [k] [w], RInt 0) :: log s |}).
Proof.
  intros [Hnone | (o & Hlive & Hother)];
    unfold Client.eval, Client.command_, Lua.run, Lua.release_script;
    unfold mbind, M_bind, Lua.nth_arg, call_get, gets, Lua.cjson_decode;
    simpl; rewrite ?Hnone, ?Hlive; simpl; [done|].
  rewrite bool_decide_false by done. reflexivity.
Qed.

(** Whatever the release script finds, it touches no key but its own and
    leaves the clock alone. *)
Lemma eval_release_frame k w s :
  let s' := (Client.eval ReleaseScript [k] [w] s).2 in
  clock s' = clock s ∧ ∀ k', k' ≠ k → db s' !! k' = db s !! k'.
Proof.
  unfold Client.eval, Client.command_, Lua.run, Lua.release_script.
  unfold mbind, M_bind, Lua.nth_arg, call_get, gets, Lua.cjson_decode,
    call_del. simpl.
  destruct (live s k) as [[txt|o]|] eqn:Hlive; simpl; [done| |done].
  case_bool_decide; simpl; [|done].
  unfold mbind, M_bind, call_get, gets. simpl. rewrite Hlive. simpl.
  split; [done|]. intros k' Hne. by rewrite lookup_delete_ne.
Qed.

End CommandFacts.

(** ** Claiming a segment *)

Section ClaimFacts.
Import Redis KeyNamer Manager Ownership.

Lemma claim_taken m now f t q x y s :
  0 < defaultTTL m →
  is_Some (live s (lockPrefix +:+ getSegmentKey f t q x y)) →
  claimSegment m now f t q x y s =
    (Return (createFailedClaim m (getSegmentKey f t q x y)),
     {| db := db s; clock := clock s;
        log := (CmdSet (lockPrefix +:+ getSegmentKey f t q x y)
                  (lock_record (workerId m) (now + defaultTTL m))
                  true (defaultTTL m), RNil) :: log s |}).
Proof.
  intros Hpx Hlive. unfold claimSegment.
  unfold mbind at 1. unfold M_bind.
  rewrite set_nx_taken by done. reflexivity.
Qed.

Lemma claim_free m now f t q x y s :
  0 < defaultTTL m →
  live s (lockPrefix +:+ getSegmentKey f t q x y) = None →
  claimSegment m now f t q x y s =
    (Return (createSuccessfulClaim m (getSegmentKey f t q x y)
               (lockPrefix +:+ getSegmentKey f t q x y)
               (now + defaultTTL m)),
     {| db := <[statusPrefix +:+ getSegmentKey f t q x y :=
                  Entry (VText "processing") (clock s + defaultTTL m * 2)]>
              (<[lockPrefix +:+ getSegmentKey f t q x y :=
                   Entry (lock_record (workerId m) (now + defaultTTL m))
                         (clock s + defaultTTL m)]> (db s));
        clock := clock s;
        log := (CmdSet (statusPrefix +:+ getSegmentKey f t q x y)
                  (VText "processing") false (defaultTTL m * 2), ROk)
               :: (CmdSet (lockPrefix +:+ getSegmentKey f t q x y)
                     (lock_record (workerId m) (now + defaultTTL m))
                     true (defaultTTL m), ROk) :: log s |}).
Proof.
  intros Hpx Hlive. unfold claimSegment.
  unfold mbind at 1. unfold M_bind.
  rewrite set_nx_free by done. simpl.
  unfold mbind at 1. unfold M_bind.
  rewrite set_plain by lia. reflexivity.
Qed.

Lemma claim_refused m now f t q x y s :
  defaultTTL m ≤ 0 →
  (claimSegment m now f t q x y s).1 = Throw (ReplyError invalid_expire).
Proof.
  intros Hpx. unfold claimSegment.
  unfold mbind at 1. unfold M_bind.
  by rewrite set_refused.
Qed.

(** An acquired claim tells how it was made. *)
Lemma claim_acquired_inv m now f t q x y s c s1 :
  claimSegment m now f t q x y s = (Return c, s1) →
  Interfaces.acquired c = true →
  0 < defaultTTL m
  ∧ live s (lockPrefix +:+ getSegmentKey f t q x y) = None
  ∧ c = createSuccessfulClaim m (getSegmentKey f t q x y)
          (lockPrefix +:+ getSegmentKey f t q x y) (now + defaultTTL m)
  ∧ db s1 = <[statusPrefix +:+ getSegmentKey f t q x y :=
                Entry (VText "processing") (clock s + defaultTTL m * 2)]>
            (<[lockPrefix +:+ getSegmentKey f t q x y :=
                 Entry (lock_record (workerId m) (now + defaultTTL m))
                       (clock s + defaultTTL m)]> (db s))
  ∧ clock s1 = clock s.
Proof.
  intros Hrun Hacq.
  destruct (Z.le_gt_cases (defaultTTL m) 0) as [Hle|Hgt].
  { pose proof (claim_refused m now f t q x y s Hle) as Hthrow.
    rewrite Hrun in Hthrow. discriminate. }
  destruct (live s (lockPrefix +:+ getSegmentKey f t q x y)) as [v|] eqn:Hlive.
  { rewrite claim_taken in Hrun by (done || eauto).
    injection Hrun as <- _. discriminate. }
  rewrite claim_free in Hrun by done.
  injection Hrun as <- <-. done.
Qed.

(** After a successful claim the lock record is visible, and owned by the
    claimant, until the lease has run out. *)
Lemma claim_holds_lock m now f t q x y s c s1 d :
  claimSegment m now f t q x y s = (Return c, s1) →
  Interfaces.acquired c = true →
  0 ≤ d ≤ defaultTTL m →
  live (advance d s1) (lockPrefix +:+ getSegmentKey f t q x y)
  = Some (lock_record (workerId m) (now + defaultTTL m)).
Proof.
  intros Hrun Hacq Hd.
  destruct (claim_acquired_inv _ _ _ _ _ _ _ _ _ _ Hrun Hacq)
    as (Httl & _ & _ & Hdb & Hclock).
  unfold live, advance. simpl. rewrite Hdb, Hclock.
  rewrite lookup_insert_ne by (apply not_eq_sym, lock_key_not_status).
  rewrite lookup_insert_eq. simpl.
  destruct (Z.leb_spec (clock s + d) (clock s + defaultTTL m)); [done|lia].
Qed.

(** C1. When the lock record of a segment is present, [claimSegment]
    leaves the keyspace alone and returns a claim with [acquired = false]
    and [expiresAt = 0], whose [extend] resolves to [false] and whose
    [release] resolves without sending any command; hence, of two attempts
    on one segment of which the first created the record, the second is not
    acquired while the first lease runs. *)
Theorem claimSegment_contended
    (m1 m2 : manager) (now1 now2 : Z) (f t q : string) (x y : Z) :
  (∀ s : server,
     is_Some (live s (lockPrefix +:+ getSegmentKey f t q x y)) →
     0 < defaultTTL m2 →
     ∃ c s', claimSegment m2 now2 f t q x y s = (Return c, s')
       ∧ same_data s s'
       ∧ Interfaces.acquired c = false
       ∧ Interfaces.expiresAt c = 0
       ∧ Interfaces.segmentKey c = getSegmentKey f t q x y
       ∧ (∀ now st, Interfaces.extend c now st = (Return false, st))
       ∧ (∀ st, Interfaces.release c st = (Return tt, st)))
  ∧ (∀ (s : server) c1 s1 d,
       claimSegment m1 now1 f t q x y s = (Return c1, s1) →
       Interfaces.acquired c1 = true →
       0 ≤ d < defaultTTL m1 →
       match (claimSegment m2 now2 f t q x y (advance d s1)).1 with
       | Return c2 =>
           Interfaces.acquired c2 = false ∧ Interfaces.expiresAt c2 = 0
       | Throw _ => defaultTTL m2 ≤ 0
       end).
Proof.
  split.
  - intros s Hlive Httl. eexists _, _.
    split; [by apply claim_taken|]. by repeat split.
  - intros s c1 s1 d Hrun Hacq Hd.
    destruct (Z.le_gt_cases (defaultTTL m2) 0) as [Hle|Hgt].
    + by rewrite claim_refused.
    + rewrite claim_taken; [done..|].
      erewrite claim_holds_lock by (done || lia). eauto.
Qed.

End ClaimFacts.


(** ** The two operations of an acquired claim, run *)

Section LeaseRuns.
Import Redis KeyNamer Manager Ownership.

Lemma extend_run m key k e now s :
  Interfaces.extend (createSuccessfulClaim m key k e) now s =
    match Client.eval ExtendScript [k]
            [workerId m; string_of_Z (now + defaultTTL m);
             string_of_Z (defaultTTL m)] s with
    | (Return result, s') => (Return (bool_decide (result = 1)), s')
    | (Throw err, s') => (Throw err, s')
    end.
Proof. reflexivity. Qed.

Lemma release_run m key k e s :
  Interfaces.release (createSuccessfulClaim m key k e) s =
    match Client.eval ReleaseScript [k] [workerId m] s with
    | (Return _, s') => (Return tt, s')
    | (Throw err, s') => (Throw err, s')
    end.
Proof. reflexivity. Qed.

(** Renewing the record that [claimSegment] wrote gives the record that a
    claim at the new time would write. *)
Lemma lock_record_renew w e e' :
  VObj (<["expiresAt"%string := JNum e']>
        (<["workerId"%string := JStr w]>
         (<["expiresAt"%string := JNum e]> ∅)))
  = lock_record w e'.
Proof. reflexivity. Qed.

Lemma extend_on_held m key k e now s o :
  0 < defaultTTL m →
  live s k = Some (VObj o) →
  o !! "workerId"%string = Some (JStr (workerId m)) →
  Interfaces.extend (createSuccessfulClaim m key k e) now s =
    (Return true,
     {| db := <[k := Entry (VObj (<["expiresAt"%string :=
                                     JNum (now + defaultTTL m)]> o))
                           (clock s + defaultTTL m)]> (db s);
        clock := clock s;
        log := (CmdEval ExtendScript [k]
                  [workerId m; string_of_Z (now + defaultTTL m);
                   string_of_Z (defaultTTL m)], RInt 1) :: log s |}).
Proof.
  intros Httl Hlive Howner. rewrite extend_run.
  by rewrite (eval_extend_held _ _ _ _ _ o).
Qed.

Lemma extend_on_not_held m key k e now s :
  not_held_by s k (workerId m) →
  Interfaces.extend (createSuccessfulClaim m key k e) now s =
    (Return false,
     {| db := db s; clock := clock s;
        log := (CmdEval ExtendScript [k]
                  [workerId m; string_of_Z (now + defaultTTL m);
                   string_of_Z (defaultTTL m)], RInt 0) :: log s |}).
Proof.
  intros Hnot. by rewrite extend_run, eval_extend_not_held.
Qed.

Lemma release_on_held m key k e s :
  held_by s k (workerId m) →
  Interfaces.release (createSuccessfulClaim m key k e) s =
    (Return tt,
     {| db := delete k (db s); clock := clock s;
        log := (CmdEval ReleaseScript [k] [workerId m], RInt 1)
               :: log s |}).
Proof.
  intros Hheld. by rewrite release_run, eval_release_held.
Qed.

Lemma release_on_not_held m key k e s :
  not_held_by s k (workerId m) →
  Interfaces.release (createSuccessfulClaim m key k e) s =
    (Return tt,
     {| db := db s; clock := clock s;
        log := (CmdEval ReleaseScript [k] [workerId m], RInt 0)
               :: log s |}).
Proof.
  intros Hnot. by rewrite release_run, eval_release_not_held.
Qed.

(** A key just written is visible, with the expiry it was given. *)
Lemma live_written k v px (s : server) l :
  0 ≤ px →
  live {| db := <[k := Entry v (clock s + px)]> (db s);
          clock := clock s; log := l |} k = Some v
  ∧ pttl {| db := <[k := Entry v (clock s + px)]> (db s);
            clock := clock s; log := l |} k = Some px.
Proof.
  intros Hpx. unfold live, pttl. simpl. rewrite lookup_insert_eq. simpl.
  destruct (Z.leb_spec (clock s) (clock s + px)); [|lia].
  split; [done|]. f_equal. lia.
Qed.

Lemma live_deleted k (s : server) l :
  live {| db := delete k (db s); clock := clock s; log := l |} k = None.
Proof. unfold live. simpl. by rewrite lookup_delete_eq. Qed.

End LeaseRuns.

(** ** Completion records, run *)

Section CompletionRuns.
Import Redis KeyNamer Manager Ownership.

Lemma mark_run m f t q x y s :
  0 < completedSegmentTTL m →
  markSegmentCompleted m f t q x y s =
    (Return tt,
     {| db := <[statusPrefix +:+ getSegmentKey f t q x y :=
                  Entry (VText "completed")
                        (clock s + completedSegmentTTL m)]>
              (<[completedPrefix +:+ getSegmentKey f t q x y :=
                   Entry (VText "true") (clock s + completedSegmentTTL m)]>
               (db s));
        clock := clock s;
        log := (CmdSet (statusPrefix +:+ getSegmentKey f t q x y)
                  (VText "completed") false (completedSegmentTTL m), ROk)
               :: (CmdSet (completedPrefix +:+ getSegmentKey f t q x y)
                     (VText "true") false (completedSegmentTTL m), ROk)
               :: log s |}).
Proof.
  intros Httl. unfold markSegmentCompleted.
  unfold mbind at 1. unfold M_bind.
  rewrite set_plain by done.
  unfold mbind at 1. unfold M_bind.
  rewrite set_plain by done. reflexivity.
Qed.

Lemma isSegmentCompleted_run m f t q x y s :
  isSegmentCompleted m f t q x y s =
    (Return (bool_decide
               (live s (completedPrefix +:+ getSegmentKey f t q x y)
                = Some (VText "true"))),
     {| db := db s; clock := clock s;
        log := (CmdGet (completedPrefix +:+ getSegmentKey f t q x y),
                if live s (completedPrefix +:+ getSegmentKey f t q x y)
                is Some v then RBulk v else RNil) :: log s |}).
Proof. reflexivity. Qed.

End CompletionRuns.

(** ** Lock keys hold lock records *)

Section LockKeys.
Import Redis KeyNamer Manager Ownership.

Lemma records_same_db s s' :
  db s' = db s → lock_keys_hold_records s → lock_keys_hold_records s'.
Proof. intros Hdb Hwf key e. rewrite Hdb. apply Hwf. Qed.

Lemma records_insert_record s s' k o w deadline :
  db s' = <[k := Entry (VObj o) deadline]> (db s) →
  o !! "workerId"%string = Some (JStr w) →
  lock_keys_hold_records s → lock_keys_hold_records s'.
Proof.
  intros Hdb Ho Hwf key e. rewrite Hdb.
  destruct (decide (k = lockPrefix +:+ key)) as [->|Hne].
  - rewrite lookup_insert_eq. intros [= <-]. by exists o, w.
  - rewrite lookup_insert_ne by done. apply Hwf.
Qed.

Lemma records_insert_elsewhere s s' k e :
  db s' = <[k := e]> (db s) →
  (∀ key, k ≠ lockPrefix +:+ key) →
  lock_keys_hold_records s → lock_keys_hold_records s'.
Proof.
  intros Hdb Hk Hwf key e'. rewrite Hdb.
  rewrite lookup_insert_ne by apply Hk. apply Hwf.
Qed.

Lemma records_delete s s' k :
  db s' = delete k (db s) →
  lock_keys_hold_records s → lock_keys_hold_records s'.
Proof.
  intros Hdb Hwf key e. rewrite Hdb.
  destruct (decide (k = lockPrefix +:+ key)) as [->|Hne].
  - by rewrite lookup_delete_eq.
  - rewrite lookup_delete_ne by done. apply Hwf.
Qed.

(** The keyspace after a [SET]. *)
Lemma db_after_set k v nx px s :
  db (Client.set k v nx px s).2 = db s
  ∨ db (Client.set k v nx px s).2 = <[k := Entry v (clock s + px)]> (db s).
Proof.
  destruct (Z.le_gt_cases px 0) as [Hle|Hgt].
  { left. by rewrite set_refused. }
  destruct nx.
  - destruct (live s k) as [cur|] eqn:Hlive.
    + left. by rewrite set_nx_taken by eauto.
    + right. by rewrite set_nx_free.
  - right. by rewrite set_plain.
Qed.

(** The keyspace after the extend script of an acquired claim. *)
Lemma db_after_extend m key k e now s :
  db (Interfaces.extend (createSuccessfulClaim m key k e) now s).2 = db s
  ∨ ∃ o deadline,
      o !! "workerId"%string = Some (JStr (workerId m))
      ∧ db (Interfaces.extend (createSuccessfulClaim m key k e) now s).2
        = <[k := Entry (VObj o) deadline]> (db s).
Proof.
  destruct (live s k) as [[txt|o]|] eqn:Hlive.
  - left. rewrite extend_run.
    unfold Client.eval, Client.command_, Lua.run, Lua.extend_script.
    unfold mbind, M_bind, Lua.nth_arg, call_get, gets, Lua.cjson_decode.
    simpl. by rewrite Hlive.
  - destruct (decide (o !! "workerId"%string = Some (JStr (workerId m))))
      as [Ho|Ho].
    + destruct (Z.le_gt_cases (defaultTTL m) 0) as [Hle|Hgt].
      * left. rewrite extend_run.
        unfold Client.eval, Client.command_, Lua.run, Lua.extend_script.
        unfold mbind, M_bind, Lua.nth_arg, call_get, gets, Lua.cjson_decode,
          Lua.call_set_px. simpl.
        rewrite Hlive. simpl. rewrite bool_decide_true by done.
        rewrite !Z_of_string_of_Z. simpl.
        unfold call_set. by destruct (Z.leb_spec (defaultTTL m) 0); [|lia].
      * right. rewrite (extend_on_held _ _ _ _ _ _ o) by done.
        eexists _, _. split; [|reflexivity].
        by rewrite lookup_insert_ne.
    + left. rewrite extend_on_not_held; [done|]. right. by exists o.
  - left. rewrite extend_on_not_held; [done|]. by left.
Qed.

(** The keyspace after the release script of an acquired claim. *)
Lemma db_after_release m key k e s :
  db (Interfaces.release (createSuccessfulClaim m key k e) s).2 = db s
  ∨ db (Interfaces.release (createSuccessfulClaim m key k e) s).2
    = delete k (db s).
Proof.
  destruct (live s k) as [[txt|o]|] eqn:Hlive.
  - left. rewrite release_run.
    unfold Client.eval, Client.command_, Lua.run, Lua.release_script.
    unfold mbind, M_bind, Lua.nth_arg, call_get, gets, Lua.cjson_decode.
    simpl. by rewrite Hlive.
  - destruct (decide (o !! "workerId"%string = Some (JStr (workerId m))))
      as [Ho|Ho].
    + right. rewrite release_on_held; [done|]. by exists o.
    + left. rewrite release_on_not_held; [done|]. right. by exists o.
  - left. rewrite release_on_not_held; [done|]. by left.
Qed.

Lemma claimSegment_keeps_records m now f t q x y s :
  lock_keys_hold_records s →
  lock_keys_hold_records (claimSegment m now f t q x y s).2.
Proof.
  intros Hwf.
  destruct (Z.le_gt_cases (defaultTTL m) 0) as [Hle|Hgt].
  { unfold claimSegment. unfold mbind at 1. unfold M_bind.
    rewrite set_refused by done. by apply (records_same_db s). }
  destruct (live s (lockPrefix +:+ getSegmentKey f t q x y)) as [v|] eqn:Hl.
  - rewrite claim_taken by eauto. by apply (records_same_db s).
  - rewrite claim_free by done.
    apply (records_insert_elsewhere
             {| db := <[lockPrefix +:+ getSegmentKey f t q x y :=
                          Entry (lock_record (workerId m)
                                   (now + defaultTTL m))
                                (clock s + defaultTTL m)]> (db s);
                clock := clock s; log := log s |} _
             (statusPrefix +:+ getSegmentKey f t q x y)
             (Entry (VText "processing") (clock s + defaultTTL m * 2)));
      [reflexivity| |].
    { intros key. apply not_eq_sym, lock_key_not_status. }
    by apply (records_insert_record s _
                (lockPrefix +:+ getSegmentKey f t q x y)
                (<["workerId"%string := JStr (workerId m)]>
                 (<["expiresAt"%string := JNum (now + defaultTTL m)]> ∅))
                (workerId m) (clock s + defaultTTL m)).
Qed.

Lemma markSegmentCompleted_keeps_records m f t q x y s :
  lock_keys_hold_records s →
  lock_keys_hold_records (markSegmentCompleted m f t q x y s).2.
Proof.
  intros Hwf.
  destruct (Z.le_gt_cases (completedSegmentTTL m) 0) as [Hle|Hgt].
  { unfold markSegmentCompleted. unfold mbind at 1. unfold M_bind.
    rewrite set_refused by done. by apply (records_same_db s). }
  rewrite mark_run by done.
  apply (records_insert_elsewhere
           {| db := <[completedPrefix +:+ getSegmentKey f t q x y :=
                        Entry (VText "true")
                              (clock s + completedSegmentTTL m)]> (db s);
              clock := clock s; log := log s |} _
           (statusPrefix +:+ getSegmentKey f t q x y)
           (Entry (VText "completed") (clock s + completedSegmentTTL m)));
    [reflexivity| |].
  { intros key. apply not_eq_sym, lock_key_not_status. }
  apply (records_insert_elsewhere s _
           (completedPrefix +:+ getSegmentKey f t q x y)
           (Entry (VText "true") (clock s + completedSegmentTTL m)));
    [reflexivity| |done].
  intros key. apply not_eq_sym, lock_key_not_completed.
Qed.

(** Every step of the protocol keeps lock records, and only lock records,
    under the lock keys. *)
Lemma run_step_keeps_records st s :
  lock_keys_hold_records s → lock_keys_hold_records (run_step st s).
Proof.
  intros Hwf. destruct st; simpl.
  - by apply claimSegment_keeps_records.
  - unfold acquired_claim.
    destruct (db_after_extend m
                (getSegmentKey (fileId i) (streamType i) (quality i)
                   (streamIndex i) (segmentIndex i))
                (lockPrefix +:+ getSegmentKey (fileId i) (streamType i)
                   (quality i) (streamIndex i) (segmentIndex i))
                expiresAt now s) as [Hdb|(o & dl & Ho & Hdb)].
    + by apply (records_same_db s).
    + by eapply records_insert_record.
  - unfold acquired_claim.
    destruct (db_after_release m
                (getSegmentKey (fileId i) (streamType i) (quality i)
                   (streamIndex i) (segmentIndex i))
                (lockPrefix +:+ getSegmentKey (fileId i) (streamType i)
                   (quality i) (streamIndex i) (segmentIndex i))
                expiresAt s) as [Hdb|Hdb].
    + by apply (records_same_db s).
    + by eapply records_delete.
  - by apply markSegmentCompleted_keeps_records.
  - by apply (records_same_db s).
  - by apply (records_same_db s).
  - by apply (records_same_db s).
  - by apply (records_same_db s).
Qed.

Lemma run_steps_keep_records sts s :
  lock_keys_hold_records s → lock_keys_hold_records (run_steps sts s).
Proof.
  revert s. induction sts as [|st sts IH]; intros s Hwf; simpl; [done|].
  apply IH. by apply run_step_keeps_records.
Qed.

Lemma empty_keyspace_records c l :
  lock_keys_hold_records {| db := ∅; clock := c; log := l |}.
Proof. intros key e. simpl. by rewrite lookup_empty. Qed.

(** When lock keys hold lock records, a lock key is either held by a
    given worker or not held by it: there is no third case. *)
Lemma held_or_not s key w :
  lock_keys_hold_records s →
  held_by s (lockPrefix +:+ key) w ∨ not_held_by s (lockPrefix +:+ key) w.
Proof.
  intros Hwf. unfold held_by, not_held_by, live.
  destruct (db s !! (lockPrefix +:+ key)) as [e|] eqn:He; [|right; by left].
  destruct (Hwf key e He) as (o & w' & Hv & Ho).
  destruct (clock s <=? e_deadline e); [|right; by left].
  rewrite Hv.
  destruct (decide (w' = w)) as [->|Hne].
  - left. by exists o.
  - right. right. exists o. split; [done|]. rewrite Ho. congruence.
Qed.

End LockKeys.

(** ** Extending and releasing an acquired claim *)

Section LeaseFacts.
Import Redis KeyNamer Manager Ownership.

(** C2. For a claim that [claimSegment] returned as acquired and any state
    of the server: if the lock record is present and names the claimant's
    worker, [extend] returns [true], the record's [expiresAt] becomes the
    present time plus the lease, its time to live becomes the whole lease,
    and no other key changes; if the record is absent or names another
    owner, [extend] returns [false] and the keyspace stays as it was; and
    [extend] returns [true] in the first case only. On a server whose lock
    keys hold lock records, which is what the protocol maintains, these are
    all the cases. *)
Theorem extend_iff_owner
    (m : manager) (now0 : Z) (f t q : string) (x y : Z)
    (s0 : server) (c : Interfaces.SegmentClaim) (s1 : server) :
  claimSegment m now0 f t q x y s0 = (Return c, s1) →
  Interfaces.acquired c = true →
  ∀ (now : Z) (s : server),
    (∀ o, live s (lockPrefix +:+ getSegmentKey f t q x y) = Some (VObj o) →
          o !! "workerId"%string = Some (JStr (workerId m)) →
       ∃ s', Interfaces.extend c now s = (Return true, s')
         ∧ live s' (lockPrefix +:+ getSegmentKey f t q x y)
           = Some (VObj (<["expiresAt"%string :=
                            JNum (now + defaultTTL m)]> o))
         ∧ pttl s' (lockPrefix +:+ getSegmentKey f t q x y)
           = Some (defaultTTL m)
         ∧ clock s' = clock s
         ∧ ∀ k', k' ≠ lockPrefix +:+ getSegmentKey f t q x y →
                 db s' !! k' = db s !! k')
    ∧ (not_held_by s (lockPrefix +:+ getSegmentKey f t q x y) (workerId m) →
       ∃ s', Interfaces.extend c now s = (Return false, s')
         ∧ same_data s s')
    ∧ ((Interfaces.extend c now s).1 = Return true
       ↔ held_by s (lockPrefix +:+ getSegmentKey f t q x y) (workerId m))
    ∧ (lock_keys_hold_records s →
       held_by s (lockPrefix +:+ getSegmentKey f t q x y) (workerId m)
       ∨ not_held_by s (lockPrefix +:+ getSegmentKey f t q x y)
           (workerId m)).
Proof.
  intros Hrun Hacq now s.
  destruct (claim_acquired_inv _ _ _ _ _ _ _ _ _ _ Hrun Hacq)
    as (Httl & _ & -> & _ & _).
  set (k := lockPrefix +:+ getSegmentKey f t q x y).
  split; [|split; [|split; [|by apply held_or_not]]].
  - intros o Hlive Howner. eexists.
    split; [by apply (extend_on_held _ _ _ _ _ _ o)|].
    destruct (live_written k
      (VObj (<["expiresAt"%string := JNum (now + defaultTTL m)]> o))
      (defaultTTL m) s
      ((CmdEval ExtendScript [k]
          [workerId m; string_of_Z (now + defaultTTL m);
           string_of_Z (defaultTTL m)], RInt 1) :: log s))
      as [Hl Hp]; [lia|].
    split; [exact Hl|]. split; [exact Hp|]. split; [done|].
    intros k' Hne. simpl. by rewrite lookup_insert_ne.
  - intros Hnot. rewrite extend_on_not_held by done.
    eexists. split; [reflexivity|]. by split.
  - split.
    + intros Htrue.
      destruct (live s k) as [[txt|o]|] eqn:Hlive.
      * rewrite extend_run in Htrue.
        unfold Client.eval, Client.command_, Lua.run, Lua.extend_script
          in Htrue.
        unfold mbind, M_bind, Lua.nth_arg, call_get, gets, Lua.cjson_decode
          in Htrue.
        simpl in Htrue. rewrite Hlive in Htrue. discriminate.
      * destruct (decide (o !! "workerId"%string
                          = Some (JStr (workerId m)))) as [Ho|Ho].
        -- by exists o.
        -- rewrite extend_on_not_held in Htrue; [discriminate|].
           right. by exists o.
      * rewrite extend_on_not_held in Htrue; [discriminate|]. by left.
    + intros (o & Hlive & Howner).
      by rewrite (extend_on_held _ _ _ _ _ _ o).
Qed.

(** C3. For a claim that [claimSegment] returned as acquired: when the lock
    record names the claimant's worker, [release] deletes it and its
    script replies with the count 1; when the record is absent or names
    another owner, nothing changes and the script replies 0. [release]
    itself resolves to no value; the count is the reply that the server
    gave to its script. On a server whose lock keys hold lock records,
    which is what the protocol maintains, these are all the cases. *)
Theorem release_iff_owner
    (m : manager) (now0 : Z) (f t q : string) (x y : Z)
    (s0 : server) (c : Interfaces.SegmentClaim) (s1 : server) :
  claimSegment m now0 f t q x y s0 = (Return c, s1) →
  Interfaces.acquired c = true →
  ∀ s : server,
    (held_by s (lockPrefix +:+ getSegmentKey f t q x y) (workerId m) →
     ∃ s', Interfaces.release c s = (Return tt, s')
       ∧ db s' = delete (lockPrefix +:+ getSegmentKey f t q x y) (db s)
       ∧ clock s' = clock s
       ∧ live s' (lockPrefix +:+ getSegmentKey f t q x y) = None
       ∧ last_command s'
         = Some (CmdEval ReleaseScript
                   [lockPrefix +:+ getSegmentKey f t q x y] [workerId m],
                 RInt 1))
    ∧ (not_held_by s (lockPrefix +:+ getSegmentKey f t q x y) (workerId m) →
       ∃ s', Interfaces.release c s = (Return tt, s')
         ∧ same_data s s'
         ∧ last_command s'
           = Some (CmdEval ReleaseScript
                     [lockPrefix +:+ getSegmentKey f t q x y] [workerId m],
                   RInt 0))
    ∧ (lock_keys_hold_records s →
       held_by s (lockPrefix +:+ getSegmentKey f t q x y) (workerId m)
       ∨ not_held_by s (lockPrefix +:+ getSegmentKey f t q x y)
           (workerId m)).
Proof.
  intros Hrun Hacq s.
  destruct (claim_acquired_inv _ _ _ _ _ _ _ _ _ _ Hrun Hacq)
    as (_ & _ & -> & _ & _).
  split; [|split; [|by apply held_or_not]].
  - intros Hheld. rewrite release_on_held by done.
    eexists. split; [reflexivity|]. repeat split. apply live_deleted.
  - intros Hnot. rewrite release_on_not_held by done.
    eexists. split; [reflexivity|]. by repeat split.
Qed.

(** C4. For a claim that [claimSegment] returned as acquired and any state
    of the server, [release] changes no key other than the segment's lock
    key, whatever the owner check finds: the status record and the
    completion record of every segment stay as they were. *)
Theorem release_touches_only_lock
    (m : manager) (now0 : Z) (f t q : string) (x y : Z)
    (s0 : server) (c : Interfaces.SegmentClaim) (s1 : server) :
  claimSegment m now0 f t q x y s0 = (Return c, s1) →
  Interfaces.acquired c = true →
  ∀ s : server,
    clock (Interfaces.release c s).2 = clock s
    ∧ (∀ k', k' ≠ lockPrefix +:+ getSegmentKey f t q x y →
         db (Interfaces.release c s).2 !! k' = db s !! k'
         ∧ live (Interfaces.release c s).2 k' = live s k')
    ∧ (∀ key',
         live (Interfaces.release c s).2 (statusPrefix +:+ key')
         = live s (statusPrefix +:+ key')
         ∧ live (Interfaces.release c s).2 (completedPrefix +:+ key')
           = live s (completedPrefix +:+ key')).
Proof.
  intros Hrun Hacq s.
  destruct (claim_acquired_inv _ _ _ _ _ _ _ _ _ _ Hrun Hacq)
    as (_ & _ & -> & _ & _).
  set (k := lockPrefix +:+ getSegmentKey f t q x y).
  assert (Hframe :
    clock (Interfaces.release
             (createSuccessfulClaim m (getSegmentKey f t q x y) k
                (now0 + defaultTTL m)) s).2 = clock s
    ∧ ∀ k', k' ≠ k →
        db (Interfaces.release
              (createSuccessfulClaim m (getSegmentKey f t q x y) k
                 (now0 + defaultTTL m)) s).2 !! k' = db s !! k').
  { rewrite release_run.
    pose proof (eval_release_frame k (workerId m) s) as Hf. simpl in Hf.
    destruct (Client.eval ReleaseScript [k] [workerId m] s) as [[n|err] s'];
      exact Hf. }
  destruct Hframe as [Hclock Hdb].
  assert (Hlive : ∀ k', k' ≠ k →
    live (Interfaces.release
            (createSuccessfulClaim m (getSegmentKey f t q x y) k
               (now0 + defaultTTL m)) s).2 k' = live s k').
  { intros k' Hne. unfold live. by rewrite Hclock, Hdb. }
  split; [done|]. split.
  - intros k' Hne. split; [by apply Hdb | by apply Hlive].
  - intros key'. split; apply Hlive; apply not_eq_sym.
    + apply lock_key_not_status.
    + apply lock_key_not_completed.
Qed.

End LeaseFacts.

(** ** The running example, run *)

Section ScenarioFacts.
Import Redis KeyNamer Manager Ownership Scenario.

Lemma scenario_claim :
  claimSegment worker_a 1000 "42" "video" "1080p" 0 3 empty_server
  = (Return claim_a, claimed_server).
Proof.
  unfold claimed_server. rewrite claim_free; reflexivity.
Qed.

Lemma scenario_held (d : Z) :
  0 ≤ d ≤ 60000 →
  held_by (advance d claimed_server)
    (lockPrefix +:+ getSegmentKey "42" "video" "1080p" 0 3) "worker-a".
Proof.
  intros Hd.
  exists (<["workerId"%string := JStr "worker-a"]>
          (<["expiresAt"%string := JNum 61000]> ∅)).
  split; [|reflexivity].
  rewrite (claim_holds_lock _ _ _ _ _ _ _ _ _ _ _ scenario_claim eq_refl).
  - reflexivity.
  - unfold worker_a. simpl. lia.
Qed.

Lemma claimSegment_contended_witness :
  (∃ c s',
     claimSegment worker_b 1500 "42" "video" "1080p" 0 3
       (advance 500 claimed_server) = (Return c, s')
     ∧ Interfaces.acquired c = false ∧ Interfaces.expiresAt c = 0)
  ∧ match (claimSegment worker_b 1500 "42" "video" "1080p" 0 3
             (advance 500 claimed_server)).1 with
    | Return c2 =>
        Interfaces.acquired c2 = false ∧ Interfaces.expiresAt c2 = 0
    | Throw _ => defaultTTL worker_b ≤ 0
    end.
Proof.
  destruct (claimSegment_contended worker_a worker_b 1000 1500
              "42" "video" "1080p" 0 3) as [Htaken Htwo].
  split.
  - destruct (Htaken (advance 500 claimed_server))
      as (c & s' & Hrun & _ & Hacq & Hexp & _).
    + vm_compute. eauto.
    + reflexivity.
    + exists c, s'. auto.
  - apply (Htwo empty_server claim_a claimed_server 500).
    + exact scenario_claim.
    + reflexivity.
    + unfold worker_a. simpl. lia.
Defined.

Lemma extend_iff_owner_witness :
  (∃ s', Interfaces.extend claim_a 2000 (advance 500 claimed_server)
         = (Return true, s')
     ∧ pttl s' (lockPrefix +:+ getSegmentKey "42" "video" "1080p" 0 3)
       = Some 60000)
  ∧ (∃ s', Interfaces.extend claim_a 2000 empty_server = (Return false, s')
       ∧ same_data empty_server s')
  ∧ (Interfaces.extend claim_a 2000 (advance 500 claimed_server)).1
    = Return true.
Proof.
  destruct (extend_iff_owner _ _ _ _ _ _ _ _ _ _ scenario_claim eq_refl
              2000 (advance 500 claimed_server)) as (Hheld & _ & Hiff & _).
  destruct (extend_iff_owner _ _ _ _ _ _ _ _ _ _ scenario_claim eq_refl
              2000 empty_server) as (_ & Hnot & _ & _).
  split; [|split].
  - destruct (Hheld (<["workerId"%string := JStr "worker-a"]>
                     (<["expiresAt"%string := JNum 61000]> ∅)))
      as (s' & Hrun & _ & Hpttl & _); [reflexivity..|].
    exists s'. split; [exact Hrun | exact Hpttl].
  - apply Hnot. left. reflexivity.
  - apply Hiff. apply (scenario_held 500). lia.
Defined.

Lemma release_iff_owner_witness :
  (∃ s', Interfaces.release claim_a (advance 500 claimed_server)
         = (Return tt, s')
     ∧ live s' (lockPrefix +:+ getSegmentKey "42" "video" "1080p" 0 3)
       = None)
  ∧ (∃ s', Interfaces.release claim_a empty_server = (Return tt, s')
       ∧ same_data empty_server s').
Proof.
  destruct (release_iff_owner _ _ _ _ _ _ _ _ _ _ scenario_claim eq_refl
              (advance 500 claimed_server)) as (Hheld & _ & _).
  destruct (release_iff_owner _ _ _ _ _ _ _ _ _ _ scenario_claim eq_refl
              empty_server) as (_ & Hnot & _).
  split.
  - destruct Hheld as (s' & Hrun & _ & _ & Hgone & _).
    + apply (scenario_held 500). lia.
    + exists s'. split; [exact Hrun | exact Hgone].
  - destruct Hnot as (s' & Hrun & Hsame & _).
    + left. reflexivity.
    + exists s'. split; [exact Hrun | exact Hsame].
Defined.

Lemma release_touches_only_lock_witness :
  live (Interfaces.release claim_a (advance 500 claimed_server)).2
       (statusPrefix +:+ getSegmentKey "42" "video" "1080p" 0 3)
  = Some (VText "processing").
Proof.
  destruct (release_touches_only_lock _ _ _ _ _ _ _ _ _ _
              scenario_claim eq_refl (advance 500 claimed_server))
    as (_ & _ & Hrecords).
  destruct (Hrecords (getSegmentKey "42" "video" "1080p" 0 3))
    as [Hstatus _].
  rewrite Hstatus. reflexivity.
Defined.

End ScenarioFacts.

(** ** Ownership is the worker's, not the claim's *)

Section StaleClaims.
Import Redis KeyNamer Manager Ownership.

Lemma claim_lock_expired m now f t q x y s c s1 d :
  claimSegment m now f t q x y s = (Return c, s1) →
  Interfaces.acquired c = true →
  defaultTTL m < d →
  live (advance d s1) (lockPrefix +:+ getSegmentKey f t q x y) = None.
Proof.
  intros Hrun Hacq Hd.
  destruct (claim_acquired_inv _ _ _ _ _ _ _ _ _ _ Hrun Hacq)
    as (Httl & _ & _ & Hdb & Hclock).
  unfold live, advance. simpl. rewrite Hdb, Hclock.
  rewrite lookup_insert_ne by (apply not_eq_sym, lock_key_not_status).
  rewrite lookup_insert_eq. simpl.
  destruct (Z.leb_spec (clock s + d) (clock s + defaultTTL m)); [lia|done].
Qed.

Lemma claim_lock_written m now f t q x y s c s1 :
  claimSegment m now f t q x y s = (Return c, s1) →
  Interfaces.acquired c = true →
  live s1 (lockPrefix +:+ getSegmentKey f t q x y)
  = Some (lock_record (workerId m) (now + defaultTTL m)).
Proof.
  intros Hrun Hacq.
  destruct (claim_acquired_inv _ _ _ _ _ _ _ _ _ _ Hrun Hacq)
    as (Httl & _ & _ & Hdb & Hclock).
  unfold live. rewrite Hdb, Hclock.
  rewrite lookup_insert_ne by (apply not_eq_sym, lock_key_not_status).
  rewrite lookup_insert_eq. simpl.
  destruct (Z.leb_spec (clock s) (clock s + defaultTTL m)); [done|lia].
Qed.

(** C10. The scripts compare the stored [workerId] with the manager's and
    nothing else. For every acquired claim [c] that a manager made for a
    segment: in any state where the segment's lock record names that
    manager's worker, [extend] of [c] returns [true] and renews the
    record, and [release] of [c] deletes it. This includes a stale claim:
    once the lease of [c] has run out and the same manager has claimed the
    segment again, [extend] and [release] of the old [c] act on the new
    lock. *)
Theorem lease_owned_by_worker_not_claim
    (m : manager) (now0 : Z) (f t q : string) (x y : Z)
    (s0 : server) (c : Interfaces.SegmentClaim) (s1 : server) :
  claimSegment m now0 f t q x y s0 = (Return c, s1) →
  Interfaces.acquired c = true →
  (∀ (now : Z) (s : server),
     held_by s (lockPrefix +:+ getSegmentKey f t q x y) (workerId m) →
     (Interfaces.extend c now s).1 = Return true
     ∧ pttl (Interfaces.extend c now s).2
            (lockPrefix +:+ getSegmentKey f t q x y) = Some (defaultTTL m)
     ∧ (Interfaces.release c s).1 = Return tt
     ∧ live (Interfaces.release c s).2
            (lockPrefix +:+ getSegmentKey f t q x y) = None)
  ∧ (∀ (d now2 : Z),
       defaultTTL m < d →
       live (advance d s1) (lockPrefix +:+ getSegmentKey f t q x y) = None
       ∧ ∃ c2 s2,
           claimSegment m now2 f t q x y (advance d s1) = (Return c2, s2)
           ∧ Interfaces.acquired c2 = true
           ∧ live s2 (lockPrefix +:+ getSegmentKey f t q x y)
             = Some (lock_record (workerId m) (now2 + defaultTTL m))
           ∧ (∀ now3, ∃ s3,
                Interfaces.extend c now3 s2 = (Return true, s3)
                ∧ live s3 (lockPrefix +:+ getSegmentKey f t q x y)
                  = Some (lock_record (workerId m) (now3 + defaultTTL m)))
           ∧ (∃ s3,
                Interfaces.release c s2 = (Return tt, s3)
                ∧ live s3 (lockPrefix +:+ getSegmentKey f t q x y) = None)).
Proof.
  intros Hrun Hacq.
  destruct (claim_acquired_inv _ _ _ _ _ _ _ _ _ _ Hrun Hacq)
    as (Httl & _ & Hc & _ & _).
  set (k := lockPrefix +:+ getSegmentKey f t q x y).
  split.
  - intros now s Hheld. rewrite Hc.
    rewrite release_on_held by done.
    destruct Hheld as (o & Hlive & Howner).
    rewrite (extend_on_held _ _ _ _ _ _ o) by done. simpl.
    split; [done|]. split; [apply live_written; lia|].
    split; [done|]. apply live_deleted.
  - intros d now2 Hd.
    pose proof (claim_lock_expired _ _ _ _ _ _ _ _ _ _ d Hrun Hacq Hd)
      as Hexpired.
    split; [exact Hexpired|].
    destruct (claimSegment m now2 f t q x y (advance d s1))
      as [r2 s2] eqn:Hrun2.
    pose proof Hrun2 as Hfree. rewrite claim_free in Hfree by done.
    injection Hfree as <- Hs2.
    assert (Hnew : live s2 k
                   = Some (lock_record (workerId m) (now2 + defaultTTL m))).
    { by eapply claim_lock_written. }
    assert (Hheld2 : held_by s2 k (workerId m)).
    { eexists. split; [exact Hnew|reflexivity]. }
    eexists _, s2. split; [reflexivity|]. split; [reflexivity|].
    split; [exact Hnew|]. rewrite Hc. split.
    + intros now3. eexists.
      split; [by eapply extend_on_held|].
      rewrite lock_record_renew. apply live_written. lia.
    + eexists. split; [by apply release_on_held|]. apply live_deleted.
Qed.

End StaleClaims.
Section StaleClaimWitness.
Import Redis KeyNamer Manager Ownership Scenario.

Lemma lease_owned_by_worker_not_claim_witness :
  (Interfaces.extend claim_a 2000 (advance 500 claimed_server)).1
    = Return true
  ∧ ∃ c2 s2,
      claimSegment worker_a 71000 "42" "video" "1080p" 0 3
        (advance 70000 claimed_server) = (Return c2, s2)
      ∧ Interfaces.acquired c2 = true
      ∧ (∃ s3, Interfaces.extend claim_a 72000 s2 = (Return true, s3))
      ∧ (∃ s3, Interfaces.release claim_a s2 = (Return tt, s3)
           ∧ live s3 (lockPrefix +:+ getSegmentKey "42" "video" "1080p" 0 3)
             = None).
Proof.
  destruct (lease_owned_by_worker_not_claim _ _ _ _ _ _ _ _ _ _
              scenario_claim eq_refl) as [Hany Hstale].
  split.
  - apply Hany. apply (scenario_held 500). lia.
  - destruct (Hstale 70000 71000)
      as (_ & c2 & s2 & Hrun2 & Hacq2 & _ & Hext & Hrel).
    + unfold worker_a. simpl. lia.
    + exists c2, s2. split; [exact Hrun2|]. split; [exact Hacq2|].
      split; [|exact Hrel].
      destruct (Hext 72000) as (s3 & Hrun3 & _). by exists s3.
Defined.

End StaleClaimWitness.

(** ** Completion records *)

Section CompletionFacts.
Import Redis KeyNamer Manager Ownership.

(** C6. In any state of the server, with or without a lock record and
    whoever claimed before, [markSegmentCompleted] followed by
    [isSegmentCompleted] on the same identity gives [true] as long as the
    completion record has not expired; and [isSegmentCompleted] answers
    [true] exactly when the completion key holds ['true']. *)
Theorem completion_independent_of_lock
    (m m' : manager) (f t q : string) (x y : Z) (s : server) (d : Z) :
  0 < completedSegmentTTL m →
  0 ≤ d < completedSegmentTTL m →
  (∃ s1,
     markSegmentCompleted m f t q x y s = (Return tt, s1)
     ∧ (isSegmentCompleted m' f t q x y (advance d s1)).1 = Return true
     ∧ db s1 !! (lockPrefix +:+ getSegmentKey f t q x y)
       = db s !! (lockPrefix +:+ getSegmentKey f t q x y))
  ∧ (∀ st : server,
       ∃ b st',
         isSegmentCompleted m' f t q x y st = (Return b, st')
         ∧ same_data st st'
         ∧ (b = true
            ↔ live st (completedPrefix +:+ getSegmentKey f t q x y)
              = Some (VText "true"))).
Proof.
  intros Httl Hd. split.
  - eexists. split; [by apply mark_run|]. split.
    + rewrite isSegmentCompleted_run. simpl.
      rewrite bool_decide_true; [done|].
      unfold live, advance. simpl.
      rewrite lookup_insert_ne by (apply not_eq_sym, completed_key_not_status).
      rewrite lookup_insert_eq. simpl.
      destruct (Z.leb_spec (clock s + d) (clock s + completedSegmentTTL m));
        [done|lia].
    + simpl.
      rewrite lookup_insert_ne by (apply not_eq_sym, lock_key_not_status).
      by rewrite lookup_insert_ne
        by (apply not_eq_sym, lock_key_not_completed).
  - intros st. eexists _, _.
    split; [apply isSegmentCompleted_run|]. split; [by split|].
    apply bool_decide_eq_true.
Qed.

Lemma completion_independent_of_lock_witness :
  (∃ s1,
     markSegmentCompleted Scenario.worker_b "42" "video" "1080p" 0 3
       Scenario.empty_server = (Return tt, s1)
     ∧ (isSegmentCompleted Scenario.worker_a "42" "video" "1080p" 0 3
          (advance 86400000 s1)).1 = Return true)
  ∧ (isSegmentCompleted Scenario.worker_a "42" "video" "1080p" 0 3
       Scenario.claimed_server).1 = Return false.
Proof.
  destruct (completion_independent_of_lock
              Scenario.worker_b Scenario.worker_a "42" "video" "1080p" 0 3
              Scenario.empty_server 86400000)
    as [(s1 & Hmark & Hdone & _) Hiff].
  - reflexivity.
  - vm_compute. split; [discriminate|reflexivity].
  - split; [by exists s1|].
    destruct (Hiff Scenario.claimed_server) as (b & st' & Hrun & _ & Hb).
    rewrite Hrun. simpl. destruct b; [|done].
    destruct Hb as [Hb _]. specialize (Hb eq_refl). vm_compute in Hb.
    discriminate.
Defined.

End CompletionFacts.

(** ** The clients leave the manager's fields alone *)

Section ClientFrame.
Import Subscribers ManagerPool PoolLogic.

Lemma keeps_ret {A} (a : A) : keeps_fields (mret a : M state A).
Proof. by intros s. Qed.

Lemma keeps_throw {A} e : keeps_fields (throw e : M state A).
Proof. by intros s. Qed.

Lemma keeps_gets {A} (f : state → A) : keeps_fields (gets f).
Proof. by intros s. Qed.

Lemma keeps_bind {A B} (m : M state A) (k : A → M state B) :
  keeps_fields m → (∀ a, keeps_fields (k a)) → keeps_fields (m ≫= k).
Proof.
  intros Hm Hk s. unfold mbind, M_bind.
  specialize (Hm s). destruct (m s) as [[a|e] s']; simpl in *.
  - by rewrite Hk.
  - done.
Qed.

Lemma keeps_try_catch {A} (m : M state A) (h : error → M state A) :
  keeps_fields m → (∀ e, keeps_fields (h e)) → keeps_fields (try_catch m h).
Proof.
  intros Hm Hh s. unfold try_catch.
  specialize (Hm s). destruct (m s) as [[a|e] s']; simpl in *.
  - done.
  - by rewrite Hh.
Qed.

Lemma keeps_ignore (m : M state unit) :
  keeps_fields m → keeps_fields (ignore_errors m).
Proof.
  intros Hm. apply keeps_try_catch; [done|]. intros e. apply keeps_ret.
Qed.

Lemma keeps_for_each {A} (f : A → M state unit) xs :
  (∀ x, keeps_fields (f x)) → keeps_fields (for_each f xs).
Proof.
  intros Hf. induction xs as [|x xs IH]; simpl.
  - apply keeps_ret.
  - apply keeps_bind; [apply Hf|]. intros _. apply IH.
Qed.

Lemma keeps_emit e : keeps_fields (emit e).
Proof. by intros s. Qed.

Lemma keeps_network : keeps_fields network.
Proof. intros s. unfold network. by destruct (faults s) as [|[e|] fs]. Qed.

Lemma keeps_set_open h b : keeps_fields (set_open h b).
Proof. by intros s. Qed.

Lemma keeps_duplicate : keeps_fields duplicate.
Proof. by intros s. Qed.

Lemma keeps_with_connections f : keeps_fields (modify (with_connections f)).
Proof. by intros s. Qed.

End ClientFrame.

Create HintDb keeps.
#[global] Hint Resolve keeps_ret keeps_throw keeps_gets keeps_emit
  keeps_network keeps_set_open keeps_duplicate keeps_with_connections
  : keeps.

(** Walk through a computation built from the client's primitives. *)
Ltac keeps :=
  repeat first
    [ progress intros
    | apply keeps_bind
    | apply keeps_try_catch
    | apply keeps_ignore
    | apply keeps_for_each
    | solve [auto with keeps]
    | match goal with
      | |- PoolLogic.keeps_fields (if ?b then _ else _) => destruct b
      | |- PoolLogic.keeps_fields (match ?x with _ => _ end) => destruct x
      end ].

Section ClientCalls.
Import Subscribers ManagerPool PoolLogic.

Lemma keeps_is_open h : keeps_fields (is_open h).
Proof. unfold is_open. keeps. Qed.

Lemma keeps_connect h : keeps_fields (connect h).
Proof. unfold connect. keeps. Qed.

Lemma keeps_disconnect h : keeps_fields (disconnect h).
Proof. unfold disconnect, is_open. keeps. Qed.

Lemma keeps_subscribe h c l : keeps_fields (subscribe h c l).
Proof. unfold subscribe, is_open. keeps. Qed.

Lemma keeps_unsubscribe h c : keeps_fields (unsubscribe h c).
Proof. unfold unsubscribe, is_open. keeps. Qed.

Lemma keeps_deliver h c msg : keeps_fields (deliver h c msg).
Proof. unfold deliver. keeps. Qed.

Lemma keeps_connection_lost h : keeps_fields (connection_lost h).
Proof. unfold connection_lost, is_open. keeps. Qed.

Lemma keeps_newSubscriber : keeps_fields newSubscriber.
Proof. unfold newSubscriber. keeps. Qed.

(** [set_open] on the table of connections. *)
Lemma is_open_set_open h b s h' :
  is_open_in (set_open h b s).2 h'
  = if decide (h' = h) then b else is_open_in s h'.
Proof.
  unfold is_open_in, set_open, modify, with_connections. simpl.
  destruct (connections s !! h) as [c|] eqn:Hc;
    (destruct (decide (h' = h)) as [->|Hne];
     [by rewrite lookup_insert_eq | by rewrite lookup_insert_ne]).
Qed.

(** What [try { await subscriber.disconnect() } catch { }] does: the call
    is made, the manager's fields stay, the client ends up closed, and no
    other client is affected. *)
Lemma disconnect_ignored h s :
  ∃ s', ignore_errors (disconnect h) s = (Return tt, s')
    ∧ fields s' = fields s
    ∧ trace s' = EvDisconnect h :: trace s
    ∧ is_open_in s' h = false
    ∧ ∀ h', h' ≠ h → is_open_in s' h' = is_open_in s h'.
Proof.
  destruct (connections s !! h) as [c|] eqn:Hc;
    [destruct (isOpen c) eqn:Hopen|];
    unfold ignore_errors, try_catch, disconnect;
    unfold mbind, M_bind, emit, modify, is_open, gets, is_open_in, set_open,
      with_connections, network, throw;
    simpl; rewrite Hc; simpl; rewrite ?Hopen; simpl.
  - destruct (faults s) as [|[e|] fs]; simpl;
      (eexists; split; [reflexivity|]; simpl;
       split; [done|]; split; [done|];
       split; [by rewrite Hc, lookup_insert_eq|];
       intros h' Hne; by rewrite Hc, lookup_insert_ne).
  - eexists. split; [reflexivity|]. simpl.
    split; [done|]. split; [done|]. rewrite Hc. done.
  - eexists. split; [reflexivity|]. simpl.
    split; [done|]. split; [done|]. rewrite Hc. done.
Qed.

(** Releasing never fails, whichever way it goes. *)
Lemma releaseSubscriber_run h s :
  releaseSubscriber h s =
    if disposed s || negb (is_open_in s h)
    then ignore_errors (disconnect h) s
    else if (length (subscriberPool s) <? poolSize)%nat
         then (Return tt, with_pool (λ pool, pool ++ [h]) s)
         else ignore_errors (disconnect h) s.
Proof.
  unfold releaseSubscriber, mbind, M_bind, gets, is_open. simpl.
  destruct (disposed s || negb (is_open_in s h)); [done|].
  by destruct (length (subscriberPool s) <? poolSize)%nat.
Qed.

Lemma releaseSubscriber_returns h s : (releaseSubscriber h s).1 = Return tt.
Proof.
  rewrite releaseSubscriber_run.
  destruct (disconnect_ignored h s) as (s' & -> & _).
  by repeat case_match.
Qed.

End ClientCalls.

(** ** What the manager's methods do to the pool *)

Section PoolFacts.
Import KeyNamer Subscribers ManagerPool PoolLogic.

Lemma keeps_preserves {A} I (m : M state A) :
  keeps_fields m → preserves I m.
Proof.
  intros Hk s HI. specialize (Hk s). unfold fields in Hk.
  injection Hk as -> ->. done.
Qed.

Lemma preserves_bind {A B} I (m : M state A) (k : A → M state B) :
  preserves I m → (∀ a, preserves I (k a)) → preserves I (m ≫= k).
Proof.
  intros Hm Hk s HI. unfold mbind, M_bind.
  specialize (Hm s HI). destruct (m s) as [[a|e] s']; simpl in *.
  - by apply Hk.
  - done.
Qed.

Lemma preserves_try_catch {A} I (m : M state A) (h : error → M state A) :
  preserves I m → (∀ e, preserves I (h e)) → preserves I (try_catch m h).
Proof.
  intros Hm Hh s HI. unfold try_catch.
  specialize (Hm s HI). destruct (m s) as [[a|e] s']; simpl in *.
  - done.
  - by apply Hh.
Qed.

Lemma preserves_try_finally {A} I (m : M state A) (fin : M state unit) :
  preserves I m → preserves I fin → preserves I (try_finally m fin).
Proof.
  intros Hm Hf s HI. unfold try_finally.
  specialize (Hm s HI). destruct (m s) as [r s']; simpl in *.
  specialize (Hf s' Hm). by destruct (fin s') as [[[]|e] s''].
Qed.

Lemma removelast_shorter {A} (l : list A) :
  (length (removelast l) ≤ length l)%nat.
Proof.
  induction l as [|a [|b l] IH]; simpl in *; lia.
Qed.

Lemma pool_pop_bounded : preserves bounded pool_pop.
Proof.
  intros s. unfold bounded. simpl.
  pose proof (removelast_shorter (subscriberPool s)). lia.
Qed.

Lemma pool_pop_shut : preserves shut pool_pop.
Proof. intros s [Hp Hd]. unfold shut. simpl. by rewrite Hp. Qed.

Lemma releaseSubscriber_bounded h : preserves bounded (releaseSubscriber h).
Proof.
  intros s Hb. rewrite releaseSubscriber_run.
  destruct (disconnect_ignored h s) as (s' & -> & Hf & _).
  injection Hf as Hp Hd.
  destruct (disposed s || negb (is_open_in s h)); simpl; [by rewrite Hp|].
  destruct (Nat.ltb_spec (length (subscriberPool s)) poolSize); simpl.
  - unfold bounded. rewrite length_app. simpl. lia.
  - by rewrite Hp.
Qed.

Lemma releaseSubscriber_shut h : preserves shut (releaseSubscriber h).
Proof.
  intros s [Hp Hd]. rewrite releaseSubscriber_run.
  destruct (disconnect_ignored h s) as (s' & -> & Hf & _).
  injection Hf as Hp' Hd'.
  rewrite Hd. simpl. unfold shut. by rewrite Hp', Hd', Hp, Hd.
Qed.

(** [dispose] on the manager's fields. *)
Lemma dispose_fields s : fields (dispose s).2 = ([], true).
Proof.
  unfold dispose.
  unfold mbind at 1. unfold M_bind. simpl.
  unfold mbind at 1. unfold M_bind. simpl.
  unfold mbind at 1. unfold M_bind. simpl.
  match goal with
  | |- fields (for_each ?f ?xs ?st).2 = _ =>
      assert (Hk : keeps_fields (for_each f xs))
  end.
  { unfold dispose_one. keeps. }
  by rewrite Hk.
Qed.

Lemma dispose_preserves I : I [] true → preserves I dispose.
Proof.
  intros HI s _. pose proof (dispose_fields s) as Hf.
  injection Hf as -> ->. done.
Qed.

(** Any property of the fields that popping and releasing preserve and
    that holds of a disposed manager is preserved by every operation. *)
Section Invariant.
Variable I : list handle → bool → Prop.
Hypothesis Hpop : preserves I pool_pop.
Hypothesis Hrelease : ∀ h, preserves I (releaseSubscriber h).
Hypothesis Hdisposed : I [] true.

Lemma getSubscriber_preserves : preserves I getSubscriber.
Proof.
  unfold getSubscriber. apply preserves_bind; [exact Hpop|].
  intros [h|]; apply keeps_preserves.
  - keeps.
  - apply keeps_newSubscriber.
Qed.

Lemma subscribe_preserves f t q x y cb :
  preserves I (subscribeToSegmentComplete f t q x y cb).
Proof.
  unfold subscribeToSegmentComplete.
  apply preserves_bind; [apply getSubscriber_preserves|]. intros h.
  apply preserves_bind.
  - apply preserves_try_catch.
    + apply keeps_preserves, keeps_subscribe.
    + intros e. apply preserves_bind; [apply Hrelease|].
      intros _. apply keeps_preserves, keeps_throw.
  - intros _. apply keeps_preserves, keeps_ret.
Qed.

Lemma unsubscribeFn_preserves h channel :
  preserves I (unsubscribeFn h channel).
Proof.
  unfold unsubscribeFn. apply preserves_try_finally; [|apply Hrelease].
  apply keeps_preserves. unfold console_error. keeps.
Qed.

Lemma run_op_preserves o s :
  I (subscriberPool s) (disposed s) →
  I (subscriberPool (run_op o s)) (disposed (run_op o s)).
Proof.
  destruct o; simpl.
  - apply getSubscriber_preserves.
  - apply Hrelease.
  - apply subscribe_preserves.
  - apply unsubscribeFn_preserves.
  - by apply dispose_preserves.
  - apply keeps_preserves, keeps_deliver.
  - apply keeps_preserves, keeps_connection_lost.
Qed.

Lemma run_ops_preserves os s :
  I (subscriberPool s) (disposed s) →
  I (subscriberPool (run_ops os s)) (disposed (run_ops os s)).
Proof.
  revert s. induction os as [|o os IH]; intros s HI; simpl; [done|].
  apply IH. by apply run_op_preserves.
Qed.

End Invariant.

End PoolFacts.

(** ** Capacity of the idle pool *)

Section Capacity.
Import KeyNamer Subscribers ManagerPool PoolLogic.

Lemma disconnect_calls_cons h s s' :
  trace s' = EvDisconnect h :: trace s →
  disconnect_calls s' = S (disconnect_calls s).
Proof. unfold disconnect_calls. by intros ->. Qed.

(** An open client released to a manager that is not disposed and has
    room is pooled, and nothing else happens. *)
Lemma release_pooled h s :
  disposed s = false → is_open_in s h = true →
  (length (subscriberPool s) < poolSize)%nat →
  releaseSubscriber h s = (Return tt, with_pool (λ pool, pool ++ [h]) s).
Proof.
  intros Hd Ho Hlen. rewrite releaseSubscriber_run, Hd, Ho. simpl.
  by destruct (Nat.ltb_spec (length (subscriberPool s)) poolSize); [|lia].
Qed.

(** A client released to a full pool is disconnected instead. *)
Lemma release_full h s :
  (poolSize ≤ length (subscriberPool s))%nat →
  ∃ s', releaseSubscriber h s = (Return tt, s')
    ∧ fields s' = fields s
    ∧ trace s' = EvDisconnect h :: trace s
    ∧ is_open_in s' h = false.
Proof.
  intros Hlen. rewrite releaseSubscriber_run.
  destruct (disconnect_ignored h s) as (s' & Hrun & Hf & Ht & Hc & _).
  exists s'. rewrite Hrun.
  destruct (disposed s || negb (is_open_in s h)); [done|].
  by destruct (Nat.ltb_spec (length (subscriberPool s)) poolSize); [lia|].
Qed.

Lemma release_all_full hs s :
  (poolSize ≤ length (subscriberPool s))%nat →
  fields (release_all hs s) = fields s
  ∧ disconnect_calls (release_all hs s)
    = (disconnect_calls s + length hs)%nat.
Proof.
  revert s. induction hs as [|h hs IH]; intros s Hlen; simpl.
  - split; [done|lia].
  - destruct (release_full h s Hlen) as (s' & Hrun & Hf & Ht & _).
    rewrite Hrun. simpl.
    pose proof Hf as Hf'. injection Hf' as Hp _.
    destruct (IH s') as [IHf IHc]; [by rewrite Hp|].
    rewrite IHf, IHc, (disconnect_calls_cons h s s' Ht). split; [done|lia].
Qed.

Lemma release_all_fills hs s :
  disposed s = false →
  (length (subscriberPool s) ≤ poolSize)%nat →
  Forall (λ h, is_open_in s h = true) hs →
  (poolSize ≤ length (subscriberPool s) + length hs)%nat →
  length (subscriberPool (release_all hs s)) = poolSize
  ∧ disconnect_calls (release_all hs s)
    = (disconnect_calls s
       + (length (subscriberPool s) + length hs - poolSize))%nat.
Proof.
  revert s. induction hs as [|h hs IH]; intros s Hd Hb Hopen Hmany.
  - simpl in *. split; lia.
  - destruct (decide (length (subscriberPool s) < poolSize)%nat) as [Hroom|Hfull].
    + apply Forall_cons in Hopen as [Hh Hrest].
      simpl. rewrite (release_pooled h s Hd Hh Hroom). simpl.
      destruct (IH (with_pool (λ pool, pool ++ [h]) s)) as [IHl IHc];
        simpl; rewrite ?length_app; simpl in *; try done; try lia.
      rewrite IHl, IHc. split; [done|].
      unfold disconnect_calls. simpl. rewrite length_app. simpl. lia.
    + destruct (release_all_full (h :: hs) s) as [Hf Hc]; [lia|].
      apply (f_equal fst) in Hf. simpl in Hf.
      change (release_all hs (releaseSubscriber h s).2)
        with (release_all (h :: hs) s) in Hf.
      rewrite Hf, Hc. split; lia.
Qed.

(** C7. The idle pool never holds more than [poolSize = 5] handles: every
    operation keeps the pool within the capacity, so it is within the
    capacity after any sequence of operations on a new manager. An open
    handle released to a manager that is not disposed is pooled when the
    pool is below the capacity, and disconnected when the pool is full.
    Releasing enough open handles to exceed the capacity therefore leaves
    exactly [poolSize] idle handles, with one [disconnect] call for each
    handle in excess. *)
Theorem pool_within_capacity :
  (∀ o s, (length (subscriberPool s) ≤ poolSize)%nat →
          (length (subscriberPool (run_op o s)) ≤ poolSize)%nat)
  ∧ (∀ fs os,
       (length (subscriberPool (run_ops os (fresh fs))) ≤ poolSize)%nat)
  ∧ (∀ h s,
       disposed s = false → is_open_in s h = true →
       ((length (subscriberPool s) < poolSize)%nat →
        releaseSubscriber h s
        = (Return tt, with_pool (λ pool, pool ++ [h]) s))
       ∧ ((poolSize ≤ length (subscriberPool s))%nat →
          ∃ s', releaseSubscriber h s = (Return tt, s')
            ∧ fields s' = fields s
            ∧ trace s' = EvDisconnect h :: trace s
            ∧ is_open_in s' h = false))
  ∧ (∀ hs s,
       disposed s = false →
       (length (subscriberPool s) ≤ poolSize)%nat →
       Forall (λ h, is_open_in s h = true) hs →
       (poolSize < length (subscriberPool s) + length hs)%nat →
       length (subscriberPool (release_all hs s)) = poolSize
       ∧ disconnect_calls (release_all hs s)
         = (disconnect_calls s
            + (length (subscriberPool s) + length hs - poolSize))%nat).
Proof.
  split; [|split; [|split]].
  - intros o s. apply (run_op_preserves bounded).
    + apply pool_pop_bounded.
    + apply releaseSubscriber_bounded.
    + unfold bounded. simpl. lia.
  - intros fs os. apply (run_ops_preserves bounded).
    + apply pool_pop_bounded.
    + apply releaseSubscriber_bounded.
    + unfold bounded. simpl. lia.
    + unfold bounded. simpl. lia.
  - intros h s Hd Ho. split.
    + by apply release_pooled.
    + apply release_full.
  - intros hs s Hd Hb Hopen Hmany. apply release_all_fills; [done..|lia].
Qed.

End Capacity.

(** ** Disposal *)

Section Disposal.
Import KeyNamer Subscribers ManagerPool PoolLogic.

Lemma dispose_one_effect h s :
  ∃ s', dispose_one h s = (Return tt, s')
    ∧ is_open_in s' h = false
    ∧ (∀ h', h' ≠ h → is_open_in s' h' = is_open_in s h')
    ∧ (is_open_in s h = true → trace s' = EvDisconnect h :: trace s)
    ∧ (is_open_in s h = false → s' = s).
Proof.
  destruct (is_open_in s h) eqn:Hopen.
  - destruct (disconnect_ignored h s) as (s' & Hrun & _ & Ht & Hc & Hother).
    exists s'. split; [|by repeat split].
    rewrite <- Hrun. unfold dispose_one, ignore_errors, try_catch.
    unfold mbind at 1. unfold M_bind, is_open, gets. by rewrite Hopen.
  - exists s. split; [|by repeat split].
    unfold dispose_one, ignore_errors, try_catch.
    unfold mbind at 1. unfold M_bind, is_open, gets. by rewrite Hopen.
Qed.

Lemma dispose_loop hs s :
  ∃ s', for_each dispose_one hs s = (Return tt, s')
    ∧ (∀ h, h ∈ hs → is_open_in s' h = false)
    ∧ (∀ h, is_open_in s h = false → is_open_in s' h = false)
    ∧ (∀ h, h ∈ hs → is_open_in s h = true → EvDisconnect h ∈ trace s')
    ∧ (∀ e, e ∈ trace s → e ∈ trace s').
Proof.
  revert s. induction hs as [|a hs IH]; intros s.
  - exists s. split; [done|]. split; [by intros h ?%elem_of_nil|].
    split; [done|]. split; [by intros h ?%elem_of_nil|done].
  - destruct (dispose_one_effect a s)
      as (s1 & Hrun1 & Hclosed & Hother & Hcalled & Hsame).
    destruct (IH s1) as (s2 & Hrun2 & Hall & Hmono & Hev & Hgrow).
    exists s2. split.
    { change (for_each dispose_one (a :: hs) s)
        with ((dispose_one a ≫= λ _, for_each dispose_one hs) s).
      unfold mbind, M_bind. rewrite Hrun1. exact Hrun2. }
    assert (Hgrow1 : ∀ e, e ∈ trace s → e ∈ trace s1).
    { intros e He. destruct (is_open_in s a) eqn:Hopen.
      - rewrite (Hcalled eq_refl). by apply list_elem_of_further.
      - by rewrite (Hsame eq_refl). }
    split; [|split; [|split]].
    + intros h [->|Hin]%elem_of_cons; [by apply Hmono | by apply Hall].
    + intros h Hh. apply Hmono.
      destruct (decide (h = a)) as [->|Hne]; [done|by rewrite Hother].
    + intros h Hin Hopen.
      destruct (decide (h = a)) as [->|Hne].
      * apply Hgrow. rewrite (Hcalled Hopen). apply list_elem_of_here.
      * apply elem_of_cons in Hin as [->|Hin]; [done|].
        apply Hev; [done|]. by rewrite Hother.
    + intros e He. by apply Hgrow, Hgrow1.
Qed.

Lemma dispose_run s :
  dispose s =
    for_each dispose_one (subscriberPool s)
      (with_pool (λ _, []) (with_disposed true s)).
Proof. reflexivity. Qed.

(** A disposed manager with an empty pool disconnects what it is given. *)
Lemma release_when_disposed h s :
  disposed s = true →
  ∃ s', releaseSubscriber h s = (Return tt, s')
    ∧ fields s' = fields s
    ∧ trace s' = EvDisconnect h :: trace s
    ∧ is_open_in s' h = false.
Proof.
  intros Hd. rewrite releaseSubscriber_run, Hd. simpl.
  destruct (disconnect_ignored h s) as (s' & Hrun & Hf & Ht & Hc & _).
  by exists s'.
Qed.

(** C8. [dispose] returns, sets the flag and empties the pool; every
    handle that was in the pool is closed afterwards, and [disconnect] was
    called on each one that was still open. From then on, whatever
    operations follow, the manager stays disposed with an empty pool, and
    every [releaseSubscriber] calls [disconnect] on its handle and pools
    nothing. *)
Theorem disposed_pool_stays_empty (s : state) :
  (dispose s).1 = Return tt
  ∧ fields (dispose s).2 = ([], true)
  ∧ (∀ h, h ∈ subscriberPool s →
       is_open_in (dispose s).2 h = false
       ∧ (is_open_in s h = true → EvDisconnect h ∈ trace (dispose s).2))
  ∧ (∀ os, fields (run_ops os (dispose s).2) = ([], true))
  ∧ (∀ os h,
       (releaseSubscriber h (run_ops os (dispose s).2)).1 = Return tt
       ∧ fields (releaseSubscriber h (run_ops os (dispose s).2)).2
         = ([], true)
       ∧ trace (releaseSubscriber h (run_ops os (dispose s).2)).2
         = EvDisconnect h :: trace (run_ops os (dispose s).2)
       ∧ is_open_in (releaseSubscriber h (run_ops os (dispose s).2)).2 h
         = false).
Proof.
  assert (Hshut : ∀ os, fields (run_ops os (dispose s).2) = ([], true)).
  { intros os.
    pose proof (run_ops_preserves shut pool_pop_shut releaseSubscriber_shut
                  (conj eq_refl eq_refl) os (dispose s).2) as Hinv.
    pose proof (dispose_fields s) as Hf. injection Hf as Hp Hd.
    destruct Hinv as [Hp' Hd']; [by split|].
    unfold fields. by rewrite Hp', Hd'. }
  split; [|split; [exact (dispose_fields s)|split; [|split; [exact Hshut|]]]].
  - rewrite dispose_run.
    by destruct (dispose_loop (subscriberPool s)
                   (with_pool (λ _, []) (with_disposed true s)))
      as (s' & -> & _).
  - intros h Hin. rewrite dispose_run.
    destruct (dispose_loop (subscriberPool s)
                (with_pool (λ _, []) (with_disposed true s)))
      as (s' & -> & Hall & _ & Hev & _).
    simpl. split; [by apply Hall|]. intros Hopen. by apply Hev.
  - intros os h.
    pose proof (Hshut os) as Hf. pose proof Hf as Hf'.
    injection Hf' as Hp Hd.
    destruct (release_when_disposed h _ Hd) as (s' & -> & Hf2 & Ht & Hc).
    simpl. rewrite Hf2. done.
Qed.

End Disposal.

(** ** Subscribing *)

Section Subscribing.
Import KeyNamer Subscribers ManagerPool PoolLogic.

(** A successful [subscribe] adds its listener to an open client. *)
Lemma subscribe_ok_invoked h channel l s s' :
  subscribe h channel l s = (Return tt, s') →
  is_open_in s' h = true
  ∧ fields s' = fields s
  ∧ ∀ ch message,
      invoked s' h ch message
      = invoked s h ch message
        ++ (if bool_decide (channel = ch) then l message else []).
Proof.
  unfold subscribe.
  unfold mbind, M_bind, emit, modify, is_open, gets, is_open_in,
    with_connections, network, throw. simpl.
  destruct (connections s !! h) as [c|] eqn:Hc; [|discriminate].
  destruct (isOpen c) eqn:Hopen; [|discriminate].
  destruct (faults s) as [|[e|] fs]; [|discriminate|];
    intros [= <-]; simpl;
    (split; [by rewrite lookup_alter_eq, Hc; simpl|]; split; [done|];
     intros ch message; unfold invoked; simpl;
     rewrite lookup_alter_eq, Hc; simpl; rewrite Hopen;
     rewrite fmap_app, join_app; simpl; by rewrite app_nil_r).
Qed.

(** C9. With the handle that [getSubscriber] has handed out: if
    [subscribe] fails, [subscribeToSegmentComplete] first runs
    [releaseSubscriber] on that handle and then throws the same error, so
    that the handle ends up in the pool or closed; if [subscribe]
    succeeds, the unsubscribe function is returned and the listener that
    was added calls the callback for the message ['completed'] on the
    segment's channel and for no other message. *)
Theorem subscribe_failure_releases
    (f t q : string) (x y : Z) (cb : callback)
    (s : state) (h : handle) (s1 : state) :
  getSubscriber s = (Return h, s1) →
  (∀ e s2,
     subscribe h (channelPrefix +:+ getSegmentKey f t q x y)
       (completion_listener cb) s1 = (Throw e, s2) →
     subscribeToSegmentComplete f t q x y cb s
     = (Throw e, (releaseSubscriber h s2).2)
     ∧ (h ∈ subscriberPool (releaseSubscriber h s2).2
        ∨ (is_open_in (releaseSubscriber h s2).2 h = false
           ∧ trace (releaseSubscriber h s2).2
             = EvDisconnect h :: trace s2)))
  ∧ (∀ s2,
       subscribe h (channelPrefix +:+ getSegmentKey f t q x y)
         (completion_listener cb) s1 = (Return tt, s2) →
       subscribeToSegmentComplete f t q x y cb s
       = (Return (unsubscribeFn h
                    (channelPrefix +:+ getSegmentKey f t q x y)), s2)
       ∧ ∀ message,
           invoked s2 h (channelPrefix +:+ getSegmentKey f t q x y) message
           = invoked s1 h (channelPrefix +:+ getSegmentKey f t q x y)
               message
             ++ (if bool_decide (message = "completed"%string)
                 then [cb] else [])).
Proof.
  intros Hget. split.
  - intros e s2 Hsub. split.
    + unfold subscribeToSegmentComplete.
      unfold mbind at 1. unfold M_bind. rewrite Hget.
      unfold mbind at 1. unfold M_bind, try_catch. rewrite Hsub.
      unfold mbind at 1. unfold M_bind.
      pose proof (releaseSubscriber_returns h s2) as Hret.
      destruct (releaseSubscriber h s2) as [r s3]. simpl in Hret.
      by rewrite Hret.
    + rewrite releaseSubscriber_run.
      destruct (disconnect_ignored h s2) as (s3 & -> & _ & Ht & Hc & _).
      destruct (disposed s2 || negb (is_open_in s2 h)); [by right|].
      destruct (length (subscriberPool s2) <? poolSize)%nat; [|by right].
      left. simpl. apply elem_of_app. right. apply list_elem_of_here.
  - intros s2 Hsub. split.
    + unfold subscribeToSegmentComplete.
      unfold mbind at 1. unfold M_bind. rewrite Hget.
      unfold mbind at 1. unfold M_bind, try_catch. by rewrite Hsub.
    + intros message.
      destruct (subscribe_ok_invoked _ _ _ _ _ Hsub) as (_ & _ & Hinv).
      rewrite Hinv. by rewrite bool_decide_true.
Qed.

End Subscribing.

(** ** The pool, run *)

Section PoolWitnesses.
Import KeyNamer Subscribers ManagerPool PoolLogic Scenario.

Lemma seven_open :
  Forall (λ h, is_open_in seven_handed_out h = true)
         [0; 1; 2; 3; 4; 5; 6]%nat.
Proof. repeat constructor. Qed.

Lemma pool_within_capacity_witness :
  length (subscriberPool
            (release_all [0; 1; 2; 3; 4; 5; 6]%nat seven_handed_out))
  = poolSize
  ∧ disconnect_calls (release_all [0; 1; 2; 3; 4; 5; 6]%nat seven_handed_out)
    = 2%nat
  ∧ releaseSubscriber 0%nat seven_handed_out
    = (Return tt, with_pool (λ pool, pool ++ [0%nat]) seven_handed_out).
Proof.
  destruct pool_within_capacity as (_ & _ & Hone & Hmany).
  destruct (Hmany [0; 1; 2; 3; 4; 5; 6]%nat seven_handed_out)
    as [Hlen Hcalls].
  - reflexivity.
  - simpl. unfold poolSize. lia.
  - exact seven_open.
  - simpl. unfold poolSize. lia.
  - split; [exact Hlen|]. split; [exact Hcalls|].
    apply Hone; [reflexivity|reflexivity|].
    simpl. unfold poolSize. lia.
Defined.

Lemma disposed_pool_stays_empty_witness :
  subscriberPool two_pooled = [0; 1]%nat
  ∧ is_open_in (dispose two_pooled).2 0%nat = false
  ∧ EvDisconnect 0%nat ∈ trace (dispose two_pooled).2
  ∧ fields (run_ops [GetSubscriber; ReleaseSubscriber 2%nat]
              (dispose two_pooled).2)
    = ([], true).
Proof.
  destruct (disposed_pool_stays_empty two_pooled)
    as (_ & _ & Hclosed & Hshut & _).
  assert (Hpool : subscriberPool two_pooled = [0; 1]%nat) by reflexivity.
  destruct (Hclosed 0%nat) as [Hc Hev].
  - rewrite Hpool. apply list_elem_of_here.
  - split; [exact Hpool|]. split; [exact Hc|].
    split; [apply Hev; reflexivity | apply Hshut].
Defined.

Lemma subscribe_failure_releases_witness :
  (subscribeToSegmentComplete "42" "video" "1080p" 0 3 7%nat flaky).1
    = Throw (TransportError 1)
  ∧ subscriberPool
      (subscribeToSegmentComplete "42" "video" "1080p" 0 3 7%nat flaky).2
    = [0%nat]
  ∧ invoked
      (subscribeToSegmentComplete "42" "video" "1080p" 0 3 7%nat
         (fresh [])).2 0%nat segment_channel "completed" = [7%nat]
  ∧ invoked
      (subscribeToSegmentComplete "42" "video" "1080p" 0 3 7%nat
         (fresh [])).2 0%nat segment_channel "progress" = [].
Proof.
  destruct (subscribe_failure_releases "42" "video" "1080p" 0 3 7%nat
              flaky 0%nat (getSubscriber flaky).2 eq_refl) as [Hfail _].
  destruct (Hfail (TransportError 1)
              (subscribe 0%nat segment_channel (completion_listener 7%nat)
                 (getSubscriber flaky).2).2 eq_refl) as [Hrun _].
  destruct (subscribe_failure_releases "42" "video" "1080p" 0 3 7%nat
              (fresh []) 0%nat (getSubscriber (fresh [])).2 eq_refl)
    as [_ Hok].
  destruct (Hok (subscribe 0%nat segment_channel (completion_listener 7%nat)
                   (getSubscriber (fresh [])).2).2 eq_refl)
    as [Hrun2 Hinv].
  rewrite Hrun, Hrun2. simpl fst. simpl snd.
  split; [reflexivity|]. split; [reflexivity|].
  split; rewrite Hinv; reflexivity.
Defined.

End PoolWitnesses.

(** * Further properties of the protocol *)

(** ** Reading the keyspace after a claim *)

Section KeyspaceReads.
Import Redis KeyNamer Manager Ownership.

Lemma live_of_entry s k e :
  db s !! k = Some e →
  live s k = if clock s <=? e_deadline e then Some (e_val e) else None.
Proof. intros He. unfold live. by rewrite He. Qed.

Lemma pttl_of_entry s k e :
  db s !! k = Some e →
  pttl s k = if clock s <=? e_deadline e
             then Some (e_deadline e - clock s) else None.
Proof. intros He. unfold pttl. by rewrite He. Qed.

Lemma live_same_entry s s' k :
  db s' !! k = db s !! k → clock s' = clock s → live s' k = live s k.
Proof. intros Hdb Hc. unfold live. by rewrite Hdb, Hc. Qed.

Lemma pttl_same_entry s s' k :
  db s' !! k = db s !! k → clock s' = clock s → pttl s' k = pttl s k.
Proof. intros Hdb Hc. unfold pttl. by rewrite Hdb, Hc. Qed.

Lemma getSegmentStatus_run m f t q x y s :
  getSegmentStatus m f t q x y s =
    (Return (live s (statusPrefix +:+ getSegmentKey f t q x y)),
     {| db := db s; clock := clock s;
        log := (CmdGet (statusPrefix +:+ getSegmentKey f t q x y),
                if live s (statusPrefix +:+ getSegmentKey f t q x y)
                is Some v then RBulk v else RNil) :: log s |}).
Proof. reflexivity. Qed.

(** The two entries that a successful claim writes, and nothing else. *)
Lemma claimed_entries m now f t q x y s c s1 :
  claimSegment m now f t q x y s = (Return c, s1) →
  Interfaces.acquired c = true →
  db s1 !! (lockPrefix +:+ getSegmentKey f t q x y)
    = Some (Entry (lock_record (workerId m) (now + defaultTTL m))
                  (clock s + defaultTTL m))
  ∧ db s1 !! (statusPrefix +:+ getSegmentKey f t q x y)
    = Some (Entry (VText "processing") (clock s + defaultTTL m * 2))
  ∧ ∀ k', k' ≠ lockPrefix +:+ getSegmentKey f t q x y →
          k' ≠ statusPrefix +:+ getSegmentKey f t q x y →
          db s1 !! k' = db s !! k'.
Proof.
  intros Hrun Hacq.
  destruct (claim_acquired_inv _ _ _ _ _ _ _ _ _ _ Hrun Hacq)
    as (_ & _ & _ & -> & _).
  split; [|split].
  - rewrite lookup_insert_ne by (apply not_eq_sym, lock_key_not_status).
    by rewrite lookup_insert_eq.
  - by rewrite lookup_insert_eq.
  - intros k' Hl Hs. by rewrite !lookup_insert_ne.
Qed.

Lemma lock_record_held k w e (s : server) :
  live s k = Some (lock_record w e) → held_by s k w.
Proof. intros Hlive. eexists. split; [exact Hlive|reflexivity]. Qed.

(** A lock has one owner. *)
Lemma held_by_one s k w w' : held_by s k w → held_by s k w' → w = w'.
Proof.
  intros (o & Hl & Ho) (o' & Hl' & Ho'). congruence.
Qed.

Lemma held_excludes s k w w' : held_by s k w → w ≠ w' → not_held_by s k w'.
Proof.
  intros (o & Hl & Ho) Hne. right. exists o. split; [done|].
  rewrite Ho. congruence.
Qed.

End KeyspaceReads.

(** ** The successful path of [claimSegment] *)

Section ClaimSuccess.
Import Redis KeyNamer Manager Ownership.

(** X1. On a free lock key, a manager with a positive lease acquires: the
    claim carries the segment key, the worker and [now + defaultTTL]; the
    lock record is stored with the lease as its time to live, the status
    ['processing'] with twice the lease; no other key changes. *)
Theorem claimSegment_acquires m now f t q x y (s : server) :
  0 < defaultTTL m →
  live s (lockPrefix +:+ getSegmentKey f t q x y) = None →
  ∃ c s1,
    claimSegment m now f t q x y s = (Return c, s1)
    ∧ Interfaces.acquired c = true
    ∧ Interfaces.segmentKey c = getSegmentKey f t q x y
    ∧ Interfaces.workerId c = workerId m
    ∧ Interfaces.expiresAt c = now + defaultTTL m
    ∧ live s1 (lockPrefix +:+ getSegmentKey f t q x y)
      = Some (lock_record (workerId m) (now + defaultTTL m))
    ∧ pttl s1 (lockPrefix +:+ getSegmentKey f t q x y)
      = Some (defaultTTL m)
    ∧ live s1 (statusPrefix +:+ getSegmentKey f t q x y)
      = Some (VText "processing")
    ∧ pttl s1 (statusPrefix +:+ getSegmentKey f t q x y)
      = Some (defaultTTL m * 2)
    ∧ clock s1 = clock s
    ∧ ∀ k', k' ≠ lockPrefix +:+ getSegmentKey f t q x y →
            k' ≠ statusPrefix +:+ getSegmentKey f t q x y →
            db s1 !! k' = db s !! k'.
Proof.
  intros Httl Hfree.
  destruct (claimSegment m now f t q x y s) as [r s1] eqn:Hrun.
  pose proof Hrun as Hfreerun. rewrite claim_free in Hfreerun by done.
  injection Hfreerun as <- Hs1.
  destruct (claimed_entries _ _ _ _ _ _ _ _ _ _ Hrun eq_refl)
    as (Hlock & Hstatus & Hother).
  assert (Hclock : clock s1 = clock s) by (by rewrite <- Hs1).
  eexists _, s1. split; [reflexivity|].
  do 4 (split; [reflexivity|]).
  rewrite (live_of_entry _ _ _ Hlock), (pttl_of_entry _ _ _ Hlock),
    (live_of_entry _ _ _ Hstatus), (pttl_of_entry _ _ _ Hstatus), Hclock.
  simpl.
  destruct (Z.leb_spec (clock s) (clock s + defaultTTL m)); [|lia].
  destruct (Z.leb_spec (clock s) (clock s + defaultTTL m * 2)); [|lia].
  split; [done|]. split; [f_equal; lia|]. split; [done|].
  split; [f_equal; lia|]. split; [done|]. exact Hother.
Qed.

Lemma claimSegment_acquires_witness :
  ∃ c s1,
    claimSegment Scenario.worker_a 1000 "42" "video" "1080p" 0 3
      Scenario.empty_server = (Return c, s1)
    ∧ Interfaces.acquired c = true
    ∧ Interfaces.expiresAt c = 61000
    ∧ pttl s1 (lockPrefix +:+ getSegmentKey "42" "video" "1080p" 0 3)
      = Some 60000
    ∧ pttl s1 (statusPrefix +:+ getSegmentKey "42" "video" "1080p" 0 3)
      = Some 120000.
Proof.
  destruct (claimSegment_acquires Scenario.worker_a 1000
              "42" "video" "1080p" 0 3 Scenario.empty_server)
    as (c & s1 & Hrun & Hacq & _ & _ & Hexp & _ & Hpl & _ & Hps & _).
  - reflexivity.
  - reflexivity.
  - exists c, s1. by repeat split.
Defined.

(** X2. The status outlives the lock: once the lease of an acquired claim
    has run out, and for as long again, the lock record is gone while
    [getSegmentStatus] still answers ['processing']; after twice the lease
    it answers [null]. *)
Theorem status_outlives_lock m m' now f t q x y (s : server) c s1 d :
  claimSegment m now f t q x y s = (Return c, s1) →
  Interfaces.acquired c = true →
  defaultTTL m < d →
  live (advance d s1) (lockPrefix +:+ getSegmentKey f t q x y) = None
  ∧ (d ≤ defaultTTL m * 2 →
     (getSegmentStatus m' f t q x y (advance d s1)).1
     = Return (Some (VText "processing")))
  ∧ (defaultTTL m * 2 < d →
     (getSegmentStatus m' f t q x y (advance d s1)).1 = Return None).
Proof.
  intros Hrun Hacq Hd.
  destruct (claim_acquired_inv _ _ _ _ _ _ _ _ _ _ Hrun Hacq)
    as (Httl & _ & _ & _ & Hclock).
  destruct (claimed_entries _ _ _ _ _ _ _ _ _ _ Hrun Hacq)
    as (Hlock & Hstatus & _).
  rewrite !getSegmentStatus_run. simpl.
  rewrite (live_of_entry (advance d s1) _ _ Hlock),
    (live_of_entry (advance d s1) _ _ Hstatus).
  simpl. rewrite Hclock.
  destruct (Z.leb_spec (clock s + d) (clock s + defaultTTL m)); [lia|].
  split; [done|].
  destruct (Z.leb_spec (clock s + d) (clock s + defaultTTL m * 2));
    split; intros; (done || lia).
Qed.

Lemma status_outlives_lock_witness :
  live (advance 90000 Scenario.claimed_server)
       (lockPrefix +:+ getSegmentKey "42" "video" "1080p" 0 3) = None
  ∧ (getSegmentStatus Scenario.worker_b "42" "video" "1080p" 0 3
       (advance 90000 Scenario.claimed_server)).1
    = Return (Some (VText "processing")).
Proof.
  destruct (status_outlives_lock Scenario.worker_a Scenario.worker_b 1000
              "42" "video" "1080p" 0 3 Scenario.empty_server
              Scenario.claim_a Scenario.claimed_server 90000
              scenario_claim eq_refl) as (Hgone & Hstill & _).
  - unfold Scenario.worker_a. simpl. lia.
  - split; [exact Hgone|]. apply Hstill.
    unfold Scenario.worker_a. simpl. lia.
Defined.

End ClaimSuccess.

(** ** Leases over time *)

Section LeaseTimeline.
Import Redis KeyNamer Manager Ownership.

(** The state after a successful extension. *)
Lemma extend_renewed m key k e now (s : server) w_exp :
  0 < defaultTTL m →
  live s k = Some (lock_record (workerId m) w_exp) →
  ∃ s2,
    Interfaces.extend (createSuccessfulClaim m key k e) now s
    = (Return true, s2)
    ∧ db s2 !! k = Some (Entry (lock_record (workerId m) (now + defaultTTL m))
                               (clock s + defaultTTL m))
    ∧ clock s2 = clock s
    ∧ ∀ k', k' ≠ k → db s2 !! k' = db s !! k'.
Proof.
  intros Httl Hlive. eexists. split.
  - by eapply extend_on_held.
  - simpl. rewrite lookup_insert_eq, lock_record_renew.
    split; [done|]. split; [done|].
    intros k' Hne. by rewrite lookup_insert_ne.
Qed.

(** X3. A lease that has run out is open to another worker: once more
    than the lease has passed since worker A's claim, worker B's
    [claimSegment] acquires the segment. From then on A's old claim is
    powerless: its [extend] returns [false] and its [release] deletes
    nothing, the keyspace staying as B's claim left it. *)
Theorem expired_lease_taken_over
    (a b : manager) (now1 now2 : Z) f t q x y (s : server) ca s1 d :
  claimSegment a now1 f t q x y s = (Return ca, s1) →
  Interfaces.acquired ca = true →
  defaultTTL a < d →
  0 < defaultTTL b →
  workerId a ≠ workerId b →
  ∃ cb s2,
    claimSegment b now2 f t q x y (advance d s1) = (Return cb, s2)
    ∧ Interfaces.acquired cb = true
    ∧ held_by s2 (lockPrefix +:+ getSegmentKey f t q x y) (workerId b)
    ∧ (∀ now3, ∃ s3,
         Interfaces.extend ca now3 s2 = (Return false, s3)
         ∧ same_data s2 s3)
    ∧ (∃ s3,
         Interfaces.release ca s2 = (Return tt, s3)
         ∧ same_data s2 s3
         ∧ held_by s3 (lockPrefix +:+ getSegmentKey f t q x y) (workerId b)).
Proof.
  intros Hrun Hacq Hd Hb Hne.
  destruct (claim_acquired_inv _ _ _ _ _ _ _ _ _ _ Hrun Hacq)
    as (_ & _ & -> & _ & _).
  pose proof (claim_lock_expired _ _ _ _ _ _ _ _ _ _ d Hrun Hacq Hd)
    as Hexpired.
  destruct (claimSegment b now2 f t q x y (advance d s1))
    as [r2 s2] eqn:Hrun2.
  pose proof Hrun2 as Hfree. rewrite claim_free in Hfree by done.
  injection Hfree as <- _.
  pose proof (claim_lock_written _ _ _ _ _ _ _ _ _ _ Hrun2 eq_refl) as Hnew.
  pose proof (lock_record_held _ _ _ _ Hnew) as Hheld.
  assert (Hnot : not_held_by s2 (lockPrefix +:+ getSegmentKey f t q x y)
                   (workerId a)).
  { eapply held_excludes; [exact Hheld|]. congruence. }
  eexists _, s2. split; [reflexivity|]. split; [reflexivity|].
  split; [exact Hheld|]. split.
  - intros now3. rewrite extend_on_not_held by done.
    eexists. split; [reflexivity|]. by split.
  - rewrite release_on_not_held by done.
    eexists. split; [reflexivity|]. split; [by split|].
    destruct Hheld as (o & Hl & Ho). exists o. split; [|done].
    unfold live in *. exact Hl.
Qed.

Lemma expired_lease_taken_over_witness :
  ∃ cb s2,
    claimSegment Scenario.worker_b 71000 "42" "video" "1080p" 0 3
      (advance 70000 Scenario.claimed_server) = (Return cb, s2)
    ∧ Interfaces.acquired cb = true
    ∧ (∃ s3, Interfaces.extend Scenario.claim_a 72000 s2
             = (Return false, s3))
    ∧ (∃ s3, Interfaces.release Scenario.claim_a s2 = (Return tt, s3)
         ∧ held_by s3 (lockPrefix +:+ getSegmentKey "42" "video" "1080p" 0 3)
             "worker-b").
Proof.
  destruct (expired_lease_taken_over Scenario.worker_a Scenario.worker_b
              1000 71000 "42" "video" "1080p" 0 3 Scenario.empty_server
              Scenario.claim_a Scenario.claimed_server 70000
              scenario_claim eq_refl)
    as (cb & s2 & Hrun & Hacq & _ & Hext & s3 & Hrel & _ & Hheld).
  - unfold Scenario.worker_a. simpl. lia.
  - reflexivity.
  - discriminate.
  - exists cb, s2. split; [exact Hrun|]. split; [exact Hacq|]. split.
    + destruct (Hext 72000) as (s3' & Hrun3 & _). by exists s3'.
    + exists s3. by split.
Defined.

(** X4. A released segment is free at once: after the owner's [release],
    within the lease, the lock record is gone and any manager with a
    positive lease acquires the segment. *)
Theorem release_frees_segment
    (a b : manager) (now1 now2 : Z) f t q x y (s : server) ca s1 d :
  claimSegment a now1 f t q x y s = (Return ca, s1) →
  Interfaces.acquired ca = true →
  0 ≤ d ≤ defaultTTL a →
  0 < defaultTTL b →
  ∃ s2,
    Interfaces.release ca (advance d s1) = (Return tt, s2)
    ∧ live s2 (lockPrefix +:+ getSegmentKey f t q x y) = None
    ∧ ∃ cb s3,
        claimSegment b now2 f t q x y s2 = (Return cb, s3)
        ∧ Interfaces.acquired cb = true
        ∧ held_by s3 (lockPrefix +:+ getSegmentKey f t q x y) (workerId b).
Proof.
  intros Hrun Hacq Hd Hb.
  pose proof (claim_holds_lock _ _ _ _ _ _ _ _ _ _ d Hrun Hacq Hd) as Hlive.
  destruct (claim_acquired_inv _ _ _ _ _ _ _ _ _ _ Hrun Hacq)
    as (_ & _ & -> & _ & _).
  rewrite release_on_held by (by eapply lock_record_held).
  eexists. split; [reflexivity|].
  assert (Hgone : live
    {| db := delete (lockPrefix +:+ getSegmentKey f t q x y)
               (db (advance d s1));
       clock := clock (advance d s1);
       log := (CmdEval ReleaseScript
                 [lockPrefix +:+ getSegmentKey f t q x y] [workerId a],
               RInt 1) :: log (advance d s1) |}
    (lockPrefix +:+ getSegmentKey f t q x y) = None)
    by apply live_deleted.
  split; [exact Hgone|].
  match goal with
  | |- ∃ cb s3, claimSegment b now2 f t q x y ?st = _ ∧ _ =>
      destruct (claimSegment b now2 f t q x y st) as [r3 s3] eqn:Hrun3
  end.
  pose proof Hrun3 as Hfree. rewrite claim_free in Hfree by done.
  injection Hfree as <- _.
  eexists _, s3. split; [reflexivity|]. split; [reflexivity|].
  eapply lock_record_held. by eapply claim_lock_written.
Qed.

Lemma release_frees_segment_witness :
  ∃ s2,
    Interfaces.release Scenario.claim_a (advance 500 Scenario.claimed_server)
    = (Return tt, s2)
    ∧ ∃ cb s3,
        claimSegment Scenario.worker_b 1600 "42" "video" "1080p" 0 3 s2
        = (Return cb, s3)
        ∧ Interfaces.acquired cb = true.
Proof.
  destruct (release_frees_segment Scenario.worker_a Scenario.worker_b
              1000 1600 "42" "video" "1080p" 0 3 Scenario.empty_server
              Scenario.claim_a Scenario.claimed_server 500
              scenario_claim eq_refl)
    as (s2 & Hrel & _ & cb & s3 & Hrun & Hacq & _).
  - unfold Scenario.worker_a. simpl. lia.
  - reflexivity.
  - exists s2. split; [exact Hrel|]. exists cb, s3. by split.
Defined.

(** X5. An extension counts from the moment it is made: after a
    successful [extend] at any time within the lease, the lock stays with
    the worker for a whole lease more, every other claim attempt in that
    time is refused, and after that time the record is gone. *)
Theorem extend_renews_lease
    (a b : manager) (now1 now2 now3 : Z) f t q x y (s : server) ca s1 d1 :
  claimSegment a now1 f t q x y s = (Return ca, s1) →
  Interfaces.acquired ca = true →
  0 ≤ d1 ≤ defaultTTL a →
  0 < defaultTTL b →
  ∃ s2,
    Interfaces.extend ca now2 (advance d1 s1) = (Return true, s2)
    ∧ (∀ d2, 0 ≤ d2 ≤ defaultTTL a →
         held_by (advance d2 s2) (lockPrefix +:+ getSegmentKey f t q x y)
           (workerId a)
         ∧ ∃ cb s3,
             claimSegment b now3 f t q x y (advance d2 s2) = (Return cb, s3)
             ∧ Interfaces.acquired cb = false)
    ∧ (∀ d2, defaultTTL a < d2 →
         live (advance d2 s2) (lockPrefix +:+ getSegmentKey f t q x y)
         = None).
Proof.
  intros Hrun Hacq Hd Hb.
  pose proof (claim_holds_lock _ _ _ _ _ _ _ _ _ _ d1 Hrun Hacq Hd) as Hlive.
  destruct (claim_acquired_inv _ _ _ _ _ _ _ _ _ _ Hrun Hacq)
    as (Httl & _ & -> & _ & Hclock).
  destruct (extend_renewed a (getSegmentKey f t q x y)
              (lockPrefix +:+ getSegmentKey f t q x y)
              (now1 + defaultTTL a) now2 (advance d1 s1)
              (now1 + defaultTTL a) Httl Hlive)
    as (s2 & Hext & Hentry & Hclock2 & _).
  exists s2. split; [exact Hext|]. split.
  - intros d2 Hd2.
    assert (Hl : live (advance d2 s2)
                   (lockPrefix +:+ getSegmentKey f t q x y)
                 = Some (lock_record (workerId a) (now2 + defaultTTL a))).
    { rewrite (live_of_entry (advance d2 s2) _ _ Hentry). simpl.
      rewrite Hclock2. simpl.
      by destruct (Z.leb_spec (clock s1 + d1 + d2)
                     (clock s1 + d1 + defaultTTL a)); [|lia]. }
    split; [by eapply lock_record_held|].
    eexists _, _. split; [apply claim_taken; [done|by rewrite Hl]|].
    reflexivity.
  - intros d2 Hd2.
    rewrite (live_of_entry (advance d2 s2) _ _ Hentry). simpl.
    rewrite Hclock2. simpl.
    by destruct (Z.leb_spec (clock s1 + d1 + d2)
                   (clock s1 + d1 + defaultTTL a)); [lia|].
Qed.

Lemma extend_renews_lease_witness :
  ∃ s2,
    Interfaces.extend Scenario.claim_a 51000
      (advance 50000 Scenario.claimed_server) = (Return true, s2)
    ∧ held_by (advance 60000 s2)
        (lockPrefix +:+ getSegmentKey "42" "video" "1080p" 0 3) "worker-a"
    ∧ live (advance 60001 s2)
        (lockPrefix +:+ getSegmentKey "42" "video" "1080p" 0 3) = None.
Proof.
  destruct (extend_renews_lease Scenario.worker_a Scenario.worker_b
              1000 51000 111000 "42" "video" "1080p" 0 3
              Scenario.empty_server Scenario.claim_a
              Scenario.claimed_server 50000 scenario_claim eq_refl)
    as (s2 & Hext & Hkeep & Hgone).
  - unfold Scenario.worker_a. simpl. lia.
  - reflexivity.
  - exists s2. split; [exact Hext|]. split.
    + apply (Hkeep 60000). unfold Scenario.worker_a. simpl. lia.
    + apply Hgone. unfold Scenario.worker_a. simpl. lia.
Defined.

(** X6. [extend] renews the lock only: the status written by the claim
    keeps its first deadline. A worker that keeps its lease alive by
    extending still holds the lock when twice the lease has passed since
    the claim, while [getSegmentStatus] answers [null]. *)
Theorem status_not_renewed_by_extend
    (a m' : manager) (now1 now2 now3 : Z) f t q x y
    (s : server) ca s1 d1 d2 d3 :
  claimSegment a now1 f t q x y s = (Return ca, s1) →
  Interfaces.acquired ca = true →
  0 ≤ d1 ≤ defaultTTL a →
  0 ≤ d2 ≤ defaultTTL a →
  0 ≤ d3 ≤ defaultTTL a →
  defaultTTL a * 2 < d1 + d2 + d3 →
  ∃ s2 s3,
    Interfaces.extend ca now2 (advance d1 s1) = (Return true, s2)
    ∧ Interfaces.extend ca now3 (advance d2 s2) = (Return true, s3)
    ∧ held_by (advance d3 s3) (lockPrefix +:+ getSegmentKey f t q x y)
        (workerId a)
    ∧ (getSegmentStatus m' f t q x y (advance d3 s3)).1 = Return None.
Proof.
  intros Hrun Hacq Hd1 Hd2 Hd3 Hlate.
  pose proof (claim_holds_lock _ _ _ _ _ _ _ _ _ _ d1 Hrun Hacq Hd1) as Hlive.
  destruct (claimed_entries _ _ _ _ _ _ _ _ _ _ Hrun Hacq)
    as (_ & Hstatus & _).
  destruct (claim_acquired_inv _ _ _ _ _ _ _ _ _ _ Hrun Hacq)
    as (Httl & _ & -> & _ & Hclock).
  destruct (extend_renewed a (getSegmentKey f t q x y)
              (lockPrefix +:+ getSegmentKey f t q x y)
              (now1 + defaultTTL a) now2 (advance d1 s1)
              (now1 + defaultTTL a) Httl Hlive)
    as (s2 & Hext2 & Hentry2 & Hclock2 & Hother2).
  assert (Hlive2 : live (advance d2 s2)
                     (lockPrefix +:+ getSegmentKey f t q x y)
                   = Some (lock_record (workerId a) (now2 + defaultTTL a))).
  { rewrite (live_of_entry (advance d2 s2) _ _ Hentry2). simpl.
    rewrite Hclock2. simpl.
    by destruct (Z.leb_spec (clock s1 + d1 + d2)
                   (clock s1 + d1 + defaultTTL a)); [|lia]. }
  destruct (extend_renewed a (getSegmentKey f t q x y)
              (lockPrefix +:+ getSegmentKey f t q x y)
              (now1 + defaultTTL a) now3 (advance d2 s2)
              (now2 + defaultTTL a) Httl Hlive2)
    as (s3 & Hext3 & Hentry3 & Hclock3 & Hother3).
  exists s2, s3. split; [exact Hext2|]. split; [exact Hext3|]. split.
  - eapply lock_record_held.
    rewrite (live_of_entry (advance d3 s3) _ _ Hentry3). simpl.
    rewrite Hclock3. simpl. rewrite Hclock2. simpl.
    by destruct (Z.leb_spec (clock s1 + d1 + d2 + d3)
                   (clock s1 + d1 + d2 + defaultTTL a)); [|lia].
  - rewrite getSegmentStatus_run. simpl.
    assert (Hstatus3 :
      db (advance d3 s3) !! (statusPrefix +:+ getSegmentKey f t q x y)
      = Some (Entry (VText "processing") (clock s + defaultTTL a * 2))).
    { simpl. rewrite Hother3 by (apply not_eq_sym, lock_key_not_status).
      simpl. rewrite Hother2 by (apply not_eq_sym, lock_key_not_status).
      exact Hstatus. }
    rewrite (live_of_entry (advance d3 s3) _ _ Hstatus3). simpl.
    rewrite Hclock3. simpl. rewrite Hclock2. simpl. rewrite Hclock.
    by destruct (Z.leb_spec (clock s + d1 + d2 + d3)
                   (clock s + defaultTTL a * 2)); [lia|].
Qed.

Lemma status_not_renewed_by_extend_witness :
  ∃ s2 s3,
    Interfaces.extend Scenario.claim_a 51000
      (advance 50000 Scenario.claimed_server) = (Return true, s2)
    ∧ Interfaces.extend Scenario.claim_a 101000 (advance 50000 s2)
      = (Return true, s3)
    ∧ held_by (advance 30000 s3)
        (lockPrefix +:+ getSegmentKey "42" "video" "1080p" 0 3) "worker-a"
    ∧ (getSegmentStatus Scenario.worker_b "42" "video" "1080p" 0 3
         (advance 30000 s3)).1 = Return None.
Proof.
  apply (status_not_renewed_by_extend Scenario.worker_a Scenario.worker_b
           1000 51000 101000 "42" "video" "1080p" 0 3
           Scenario.empty_server Scenario.claim_a Scenario.claimed_server
           50000 50000 30000 scenario_claim eq_refl);
    unfold Scenario.worker_a; simpl; lia.
Defined.

End LeaseTimeline.

(** ** Completion and the lock *)

Section CompletionAndLock.
Import Redis KeyNamer Manager Ownership.

(** The entries that [markSegmentCompleted] writes, and nothing else. *)
Lemma marked_entries m f t q x y (s : server) :
  0 < completedSegmentTTL m →
  ∃ s1,
    markSegmentCompleted m f t q x y s = (Return tt, s1)
    ∧ db s1 !! (completedPrefix +:+ getSegmentKey f t q x y)
      = Some (Entry (VText "true") (clock s + completedSegmentTTL m))
    ∧ db s1 !! (statusPrefix +:+ getSegmentKey f t q x y)
      = Some (Entry (VText "completed") (clock s + completedSegmentTTL m))
    ∧ clock s1 = clock s
    ∧ ∀ k', k' ≠ completedPrefix +:+ getSegmentKey f t q x y →
            k' ≠ statusPrefix +:+ getSegmentKey f t q x y →
            db s1 !! k' = db s !! k'.
Proof.
  intros Httl. eexists. split; [by apply mark_run|]. simpl.
  split; [|split; [|split; [done|]]].
  - rewrite lookup_insert_ne by (apply not_eq_sym, completed_key_not_status).
    by rewrite lookup_insert_eq.
  - by rewrite lookup_insert_eq.
  - intros k' Hc Hs. by rewrite !lookup_insert_ne.
Qed.

(** X7. Marking a segment completed does not give up its lock: the lock
    record and its time to live stay as they were, so every other claim
    attempt is still refused, while [getSegmentStatus] now answers
    ['completed'] in place of ['processing']. *)
Theorem completion_keeps_lock
    (m m' b : manager) (now : Z) f t q x y (s : server) w :
  0 < completedSegmentTTL m →
  0 < defaultTTL b →
  held_by s (lockPrefix +:+ getSegmentKey f t q x y) w →
  ∃ s1,
    markSegmentCompleted m f t q x y s = (Return tt, s1)
    ∧ held_by s1 (lockPrefix +:+ getSegmentKey f t q x y) w
    ∧ pttl s1 (lockPrefix +:+ getSegmentKey f t q x y)
      = pttl s (lockPrefix +:+ getSegmentKey f t q x y)
    ∧ (getSegmentStatus m' f t q x y s1).1
      = Return (Some (VText "completed"))
    ∧ ∃ cb s2,
        claimSegment b now f t q x y s1 = (Return cb, s2)
        ∧ Interfaces.acquired cb = false.
Proof.
  intros Httl Hb Hheld.
  destruct (marked_entries m f t q x y s Httl)
    as (s1 & Hrun & _ & Hstatus & Hclock & Hother).
  pose proof (Hother (lockPrefix +:+ getSegmentKey f t q x y)
                (lock_key_not_completed _ _) (lock_key_not_status _ _))
    as Hlock.
  pose proof (live_same_entry s s1 _ Hlock Hclock) as Hlive.
  exists s1. split; [exact Hrun|]. split; [|split; [|split]].
  - destruct Hheld as (o & Hl & Ho). exists o. by rewrite Hlive.
  - by apply pttl_same_entry.
  - rewrite getSegmentStatus_run. simpl.
    rewrite (live_of_entry s1 _ _ Hstatus). simpl. rewrite Hclock.
    by destruct (Z.leb_spec (clock s) (clock s + completedSegmentTTL m));
      [|lia].
  - assert (Htaken : is_Some (live s1
                (lockPrefix +:+ getSegmentKey f t q x y))).
    { rewrite Hlive. destruct Hheld as (o & -> & _). eauto. }
    rewrite claim_taken by done. eexists _, _. split; reflexivity.
Qed.

Lemma completion_keeps_lock_witness :
  ∃ s1,
    markSegmentCompleted Scenario.worker_a "42" "video" "1080p" 0 3
      (advance 500 Scenario.claimed_server) = (Return tt, s1)
    ∧ held_by s1 (lockPrefix +:+ getSegmentKey "42" "video" "1080p" 0 3)
        "worker-a"
    ∧ (getSegmentStatus Scenario.worker_b "42" "video" "1080p" 0 3 s1).1
      = Return (Some (VText "completed")).
Proof.
  destruct (completion_keeps_lock Scenario.worker_a Scenario.worker_b
              Scenario.worker_b 1600 "42" "video" "1080p" 0 3
              (advance 500 Scenario.claimed_server) "worker-a")
    as (s1 & Hrun & Hheld & _ & Hstatus & _).
  - reflexivity.
  - reflexivity.
  - apply (scenario_held 500). lia.
  - exists s1. by repeat split.
Defined.

(** X8. Completion is not for ever: once more than the completion time to
    live has passed since [markSegmentCompleted], [isSegmentCompleted]
    answers [false] again and [getSegmentStatus] answers [null]. *)
Theorem completion_expires
    (m m' : manager) f t q x y (s : server) d :
  0 < completedSegmentTTL m →
  completedSegmentTTL m < d →
  ∃ s1,
    markSegmentCompleted m f t q x y s = (Return tt, s1)
    ∧ (isSegmentCompleted m' f t q x y (advance d s1)).1 = Return false
    ∧ (getSegmentStatus m' f t q x y (advance d s1)).1 = Return None.
Proof.
  intros Httl Hd.
  destruct (marked_entries m f t q x y s Httl)
    as (s1 & Hrun & Hdone & Hstatus & Hclock & _).
  exists s1. split; [exact Hrun|].
  rewrite isSegmentCompleted_run, getSegmentStatus_run. simpl.
  rewrite (live_of_entry (advance d s1) _ _ Hdone),
    (live_of_entry (advance d s1) _ _ Hstatus). simpl. rewrite Hclock.
  by destruct (Z.leb_spec (clock s + d) (clock s + completedSegmentTTL m));
    [lia|].
Qed.

Lemma completion_expires_witness :
  ∃ s1,
    markSegmentCompleted Scenario.worker_a "42" "video" "1080p" 0 3
      Scenario.empty_server = (Return tt, s1)
    ∧ (isSegmentCompleted Scenario.worker_b "42" "video" "1080p" 0 3
         (advance 604800001 s1)).1 = Return false.
Proof.
  destruct (completion_expires Scenario.worker_a Scenario.worker_b
              "42" "video" "1080p" 0 3 Scenario.empty_server 604800001)
    as (s1 & Hrun & Hdone & _).
  - reflexivity.
  - reflexivity.
  - exists s1. by split.
Defined.

End CompletionAndLock.

(** ** Configuration at the edges *)

Section Configuration.
Import Redis KeyNamer Manager Ownership.

(** X9. A completion time to live that is omitted or given as 0 becomes
    seven days: such a manager's [markSegmentCompleted] succeeds and
    stores both the completion record and the status with 604800000 ms to
    live. *)
Theorem zero_completion_ttl_means_a_week
    (w : string) (ttl cttl : option Z) f t q x y (s : server) :
  cttl = None ∨ cttl = Some 0 →
  ∃ s1,
    markSegmentCompleted (new_manager w ttl cttl) f t q x y s
    = (Return tt, s1)
    ∧ pttl s1 (completedPrefix +:+ getSegmentKey f t q x y)
      = Some 604800000
    ∧ pttl s1 (statusPrefix +:+ getSegmentKey f t q x y)
      = Some 604800000.
Proof.
  intros Hc.
  assert (Hweek : completedSegmentTTL (new_manager w ttl cttl) = 604800000)
    by (by destruct Hc as [-> | ->]).
  generalize dependent (new_manager w ttl cttl). intros m Hweek.
  destruct (marked_entries m f t q x y s)
    as (s1 & Hrun & Hdone & Hstatus & Hclock & _); [by rewrite Hweek|].
  exists s1. split; [exact Hrun|].
  rewrite (pttl_of_entry s1 _ _ Hdone), (pttl_of_entry s1 _ _ Hstatus).
  simpl. rewrite Hclock, Hweek.
  destruct (Z.leb_spec (clock s) (clock s + 604800000)); [|lia].
  split; f_equal; lia.
Qed.

Lemma zero_completion_ttl_means_a_week_witness :
  ∃ s1,
    markSegmentCompleted (new_manager "worker-c" None (Some 0))
      "42" "video" "1080p" 0 3 Scenario.empty_server = (Return tt, s1)
    ∧ pttl s1 (completedPrefix +:+ getSegmentKey "42" "video" "1080p" 0 3)
      = Some 604800000.
Proof.
  destruct (zero_completion_ttl_means_a_week "worker-c" None (Some 0)
              "42" "video" "1080p" 0 3 Scenario.empty_server)
    as (s1 & Hrun & Hp & _).
  - by right.
  - exists s1. by split.
Defined.

(** X10. A lease that is not positive makes the manager unusable for
    claiming: the default applies only to an omitted lease, so a manager
    built with a lease of 0 or less has every [claimSegment] rejected by
    the server's [SET], whatever the state of the lock, and nothing is
    written. A negative completion time to live does the same to
    [markSegmentCompleted]: it throws before the completion record is
    written. *)
Theorem nonpositive_ttl_is_refused
    (w : string) (ttl cttl : option Z) (lease : Z)
    (now : Z) f t q x y (s : server) :
  lease ≤ 0 →
  (∃ s1,
     claimSegment (new_manager w (Some lease) cttl) now f t q x y s
     = (Throw (ReplyError invalid_expire), s1)
     ∧ same_data s s1)
  ∧ (lease < 0 →
     ∃ s1,
       markSegmentCompleted (new_manager w ttl (Some lease)) f t q x y s
       = (Throw (ReplyError invalid_expire), s1)
       ∧ same_data s s1).
Proof.
  intros Hle. split.
  - unfold claimSegment. unfold mbind at 1. unfold M_bind.
    rewrite set_refused by done.
    eexists. split; [reflexivity|]. by split.
  - intros Hneg.
    assert (Hc : completedSegmentTTL (new_manager w ttl (Some lease)) = lease).
    { simpl. by destruct (Z.eqb_spec lease 0); [lia|]. }
    unfold markSegmentCompleted. unfold mbind at 1. unfold M_bind.
    rewrite set_refused by (rewrite Hc; lia).
    eexists. split; [reflexivity|]. by split.
Qed.

Lemma nonpositive_ttl_is_refused_witness :
  (∃ s1,
     claimSegment (new_manager "worker-c" (Some (-5)) None) 1000
       "42" "video" "1080p" 0 3 Scenario.empty_server
     = (Throw (ReplyError invalid_expire), s1)
     ∧ same_data Scenario.empty_server s1)
  ∧ (∃ s1,
       markSegmentCompleted (new_manager "worker-c" None (Some (-5)))
         "42" "video" "1080p" 0 3 Scenario.empty_server
       = (Throw (ReplyError invalid_expire), s1)
       ∧ same_data Scenario.empty_server s1).
Proof.
  destruct (nonpositive_ttl_is_refused "worker-c" None None (-5) 1000
              "42" "video" "1080p" 0 3 Scenario.empty_server)
    as [Hclaim Hmark].
  - lia.
  - split; [exact Hclaim|]. apply Hmark. lia.
Defined.

End Configuration.

(** ** What a step of the protocol can do to a key *)

Section StepEffects.
Import Redis KeyNamer Manager Ownership.

(** The rejected claim of a manager whose lease is not positive. *)
Lemma claim_refused_run m now f t q x y (s : server) :
  defaultTTL m ≤ 0 →
  claimSegment m now f t q x y s =
    (Throw (ReplyError invalid_expire),
     {| db := db s; clock := clock s;
        log := (CmdSet (lockPrefix +:+ getSegmentKey f t q x y)
                  (lock_record (workerId m) (now + defaultTTL m))
                  true (defaultTTL m), RError invalid_expire) :: log s |}).
Proof.
  intros Hle. unfold claimSegment. unfold mbind at 1. unfold M_bind.
  by rewrite set_refused.
Qed.

Lemma mark_refused_run m f t q x y (s : server) :
  completedSegmentTTL m ≤ 0 →
  markSegmentCompleted m f t q x y s =
    (Throw (ReplyError invalid_expire),
     {| db := db s; clock := clock s;
        log := (CmdSet (completedPrefix +:+ getSegmentKey f t q x y)
                  (VText "true") false (completedSegmentTTL m),
                RError invalid_expire) :: log s |}).
Proof.
  intros Hle. unfold markSegmentCompleted. unfold mbind at 1. unfold M_bind.
  by rewrite set_refused.
Qed.

(** A claim attempt, whatever its outcome, touches at most the lock key
    and the status key of its segment, and never the clock. *)
Lemma claimSegment_frame m now f t q x y (s : server) :
  clock (claimSegment m now f t q x y s).2 = clock s
  ∧ ∀ k', k' ≠ lockPrefix +:+ getSegmentKey f t q x y →
          k' ≠ statusPrefix +:+ getSegmentKey f t q x y →
          db (claimSegment m now f t q x y s).2 !! k' = db s !! k'.
Proof.
  destruct (Z.le_gt_cases (defaultTTL m) 0) as [Hle|Hgt].
  { rewrite claim_refused_run by done. by split. }
  destruct (live s (lockPrefix +:+ getSegmentKey f t q x y)) as [v|] eqn:Hl.
  - rewrite claim_taken by eauto. by split.
  - rewrite claim_free by done. simpl. split; [done|].
    intros k' H1 H2. by rewrite !lookup_insert_ne.
Qed.

(** A claim attempt on its own lock key: nothing happens to a visible
    record; a free key receives the claimant's record. *)
Lemma claimSegment_on_lock m now f t q x y (s : server) :
  db (claimSegment m now f t q x y s).2
     !! (lockPrefix +:+ getSegmentKey f t q x y)
  = db s !! (lockPrefix +:+ getSegmentKey f t q x y)
  ∨ (live s (lockPrefix +:+ getSegmentKey f t q x y) = None
     ∧ db (claimSegment m now f t q x y s).2
          !! (lockPrefix +:+ getSegmentKey f t q x y)
       = Some (Entry (lock_record (workerId m) (now + defaultTTL m))
                     (clock s + defaultTTL m))).
Proof.
  destruct (Z.le_gt_cases (defaultTTL m) 0) as [Hle|Hgt].
  { left. by rewrite claim_refused_run. }
  destruct (live s (lockPrefix +:+ getSegmentKey f t q x y)) as [v|] eqn:Hl.
  - left. by rewrite claim_taken by eauto.
  - right. split; [done|]. rewrite claim_free by done. simpl.
    rewrite lookup_insert_ne by (apply not_eq_sym, lock_key_not_status).
    by rewrite lookup_insert_eq.
Qed.

(** Marking, whatever its outcome, touches at most the completion key and
    the status key of its segment; what it leaves under the completion
    key is what was there or the marker. *)
Lemma markSegmentCompleted_frame m f t q x y (s : server) :
  clock (markSegmentCompleted m f t q x y s).2 = clock s
  ∧ (∀ k', k' ≠ completedPrefix +:+ getSegmentKey f t q x y →
           k' ≠ statusPrefix +:+ getSegmentKey f t q x y →
           db (markSegmentCompleted m f t q x y s).2 !! k' = db s !! k')
  ∧ (db (markSegmentCompleted m f t q x y s).2
        !! (completedPrefix +:+ getSegmentKey f t q x y)
     = db s !! (completedPrefix +:+ getSegmentKey f t q x y)
     ∨ db (markSegmentCompleted m f t q x y s).2
          !! (completedPrefix +:+ getSegmentKey f t q x y)
       = Some (Entry (VText "true") (clock s + completedSegmentTTL m))).
Proof.
  destruct (Z.le_gt_cases (completedSegmentTTL m) 0) as [Hle|Hgt].
  { rewrite mark_refused_run by done. simpl. split; [done|].
    split; [done|]. by left. }
  destruct (marked_entries m f t q x y s Hgt)
    as (s1 & -> & Hdone & _ & Hclock & Hother).
  simpl. split; [done|]. split; [done|]. by right.
Qed.

(** The extend script writes only on a lock that the worker holds. *)
Lemma extend_effect m key k e now (s : server) :
  clock (Interfaces.extend (createSuccessfulClaim m key k e) now s).2
  = clock s
  ∧ (db (Interfaces.extend (createSuccessfulClaim m key k e) now s).2 = db s
     ∨ (held_by s k (workerId m)
        ∧ ∃ o deadline,
            o !! "workerId"%string = Some (JStr (workerId m))
            ∧ db (Interfaces.extend (createSuccessfulClaim m key k e) now s).2
              = <[k := Entry (VObj o) deadline]> (db s))).
Proof.
  destruct (live s k) as [[txt|o]|] eqn:Hlive.
  - rewrite extend_run.
    unfold Client.eval, Client.command_, Lua.run, Lua.extend_script.
    unfold mbind, M_bind, Lua.nth_arg, call_get, gets, Lua.cjson_decode.
    simpl. rewrite Hlive. simpl. split; [done|]. by left.
  - destruct (decide (o !! "workerId"%string = Some (JStr (workerId m))))
      as [Ho|Ho].
    + destruct (Z.le_gt_cases (defaultTTL m) 0) as [Hle|Hgt].
      * rewrite extend_run.
        unfold Client.eval, Client.command_, Lua.run, Lua.extend_script.
        unfold mbind, M_bind, Lua.nth_arg, call_get, gets, Lua.cjson_decode,
          Lua.call_set_px. simpl.
        rewrite Hlive. simpl. rewrite bool_decide_true by done.
        rewrite !Z_of_string_of_Z. simpl.
        unfold call_set. destruct (Z.leb_spec (defaultTTL m) 0); [|lia].
        simpl. split; [done|]. by left.
      * rewrite (extend_on_held _ _ _ _ _ _ o) by done. simpl.
        split; [done|]. right. split; [by exists o|].
        eexists _, _. split; [|reflexivity]. by rewrite lookup_insert_ne.
    + rewrite extend_on_not_held by (right; by exists o).
      simpl. split; [done|]. by left.
  - rewrite extend_on_not_held by (by left). simpl. split; [done|]. by left.
Qed.

Lemma release_clock m key k e (s : server) :
  clock (Interfaces.release (createSuccessfulClaim m key k e) s).2 = clock s.
Proof.
  rewrite release_run.
  pose proof (eval_release_frame k (workerId m) s) as [Hc _].
  by destruct (Client.eval ReleaseScript [k] [workerId m] s) as [[n|err] s'].
Qed.

(** What any step leaves under a lock key: what was there, nothing, or a
    record of a worker who held the lock or found it free. *)
Lemma step_on_lock_key st (s : server) key :
  db (run_step st s) !! (lockPrefix +:+ key) = db s !! (lockPrefix +:+ key)
  ∨ db (run_step st s) !! (lockPrefix +:+ key) = None
  ∨ ∃ w o deadline,
      db (run_step st s) !! (lockPrefix +:+ key)
      = Some (Entry (VObj o) deadline)
      ∧ o !! "workerId"%string = Some (JStr w)
      ∧ (held_by s (lockPrefix +:+ key) w
         ∨ live s (lockPrefix +:+ key) = None).
Proof.
  destruct st as [m now i|m e now i|m e i|m i|m i|m i|m i|d];
    unfold run_step; try (left; reflexivity).
  - destruct (decide (lockPrefix +:+ key
                      = lockPrefix +:+ getSegmentKey (fileId i)
                          (streamType i) (quality i) (streamIndex i)
                          (segmentIndex i))) as [->|Hne].
    + destruct (claimSegment_on_lock m now (fileId i) (streamType i)
                  (quality i) (streamIndex i) (segmentIndex i) s)
        as [Hsame|[Hfree Hnew]]; [by left|].
      right. right. eexists (workerId m), _, _.
      split; [exact Hnew|]. split; [reflexivity|by right].
    + left. apply claimSegment_frame; [done|apply lock_key_not_status].
  - unfold acquired_claim.
    destruct (extend_effect m
                (getSegmentKey (fileId i) (streamType i) (quality i)
                   (streamIndex i) (segmentIndex i))
                (lockPrefix +:+ getSegmentKey (fileId i) (streamType i)
                   (quality i) (streamIndex i) (segmentIndex i))
                e now s) as [_ [->|(Hheld & o & dl & Ho & ->)]];
      [by left|].
    destruct (decide (lockPrefix +:+ key
                      = lockPrefix +:+ getSegmentKey (fileId i)
                          (streamType i) (quality i) (streamIndex i)
                          (segmentIndex i))) as [->|Hne].
    + right. right. exists (workerId m), o, dl.
      rewrite lookup_insert_eq. split; [done|]. split; [done|by left].
    + left. by rewrite lookup_insert_ne.
  - unfold acquired_claim.
    destruct (db_after_release m
                (getSegmentKey (fileId i) (streamType i) (quality i)
                   (streamIndex i) (segmentIndex i))
                (lockPrefix +:+ getSegmentKey (fileId i) (streamType i)
                   (quality i) (streamIndex i) (segmentIndex i))
                e s) as [->| ->]; [by left|].
    destruct (decide (lockPrefix +:+ key
                      = lockPrefix +:+ getSegmentKey (fileId i)
                          (streamType i) (quality i) (streamIndex i)
                          (segmentIndex i))) as [->|Hne].
    + right. left. by rewrite lookup_delete_eq.
    + left. by rewrite lookup_delete_ne.
  - left. apply markSegmentCompleted_frame;
      [apply lock_key_not_completed | apply lock_key_not_status].
Qed.

(** X11. No step of the protocol moves a visible lock from one worker to
    another: if a worker holds the lock of a segment before a step (a
    method of any manager on any segment, an operation of any acquired
    claim, or the passing of time) and some worker holds it after the
    step, it is the same worker. *)
Theorem no_step_transfers_a_lock st (s : server) key w w' :
  held_by s (lockPrefix +:+ key) w →
  held_by (run_step st s) (lockPrefix +:+ key) w' →
  w' = w.
Proof.
  intros Hbefore (o' & Hl' & Ho').
  assert (Hentry' : ∃ e', db (run_step st s) !! (lockPrefix +:+ key) = Some e'
                          ∧ e_val e' = VObj o').
  { unfold live in Hl'.
    destruct (db (run_step st s) !! (lockPrefix +:+ key)) as [e'|];
      [|discriminate].
    exists e'. split; [done|].
    destruct (clock (run_step st s) <=? e_deadline e'); congruence. }
  destruct Hentry' as (e' & He' & Hv').
  destruct (step_on_lock_key st s key)
    as [Hsame|[Hnone|(w0 & o & dl & Hnew & Ho & Hwho)]].
  - destruct Hbefore as (o & Hl & Ho).
    unfold live in Hl. rewrite <- Hsame, He' in Hl.
    destruct (clock s <=? e_deadline e'); [|discriminate].
    congruence.
  - congruence.
  - rewrite Hnew in He'. injection He' as <-. simpl in Hv'.
    injection Hv' as <-.
    assert (w' = w0) as -> by congruence.
    destruct Hwho as [Hheld|Hfree].
    + eapply held_by_one; eauto.
    + destruct Hbefore as (o0 & Hl & _). congruence.
Qed.

Lemma no_step_transfers_a_lock_witness :
  "worker-a"%string = "worker-a"%string.
Proof.
  apply (no_step_transfers_a_lock
           (StepExtend Scenario.worker_a 61000 2000
              (Identity "42" "video" "1080p" 0 3))
           (advance 500 Scenario.claimed_server)
           (getSegmentKey "42" "video" "1080p" 0 3)).
  - apply (scenario_held 500). lia.
  - eexists. split; reflexivity.
Defined.

End StepEffects.

(** ** Invariants of the protocol *)

Section ProtocolInvariants.
Import Redis KeyNamer Manager Ownership.

(** What any step leaves under a completion key: what was there, or the
    marker. *)
Lemma step_on_completed_key st (s : server) key :
  db (run_step st s) !! (completedPrefix +:+ key)
  = db s !! (completedPrefix +:+ key)
  ∨ ∃ deadline,
      db (run_step st s) !! (completedPrefix +:+ key)
      = Some (Entry (VText "true") deadline).
Proof.
  destruct st as [m now i|m e now i|m e i|m i|m i|m i|m i|d];
    unfold run_step; try (left; reflexivity).
  - left. apply claimSegment_frame.
    + apply not_eq_sym, lock_key_not_completed.
    + apply completed_key_not_status.
  - left. unfold acquired_claim.
    destruct (extend_effect m
                (getSegmentKey (fileId i) (streamType i) (quality i)
                   (streamIndex i) (segmentIndex i))
                (lockPrefix +:+ getSegmentKey (fileId i) (streamType i)
                   (quality i) (streamIndex i) (segmentIndex i))
                e now s) as [_ [->|(_ & o & dl & _ & ->)]]; [done|].
    rewrite lookup_insert_ne; [done|apply lock_key_not_completed].
  - left. unfold acquired_claim.
    destruct (db_after_release m
                (getSegmentKey (fileId i) (streamType i) (quality i)
                   (streamIndex i) (segmentIndex i))
                (lockPrefix +:+ getSegmentKey (fileId i) (streamType i)
                   (quality i) (streamIndex i) (segmentIndex i))
                e s) as [->| ->]; [done|].
    rewrite lookup_delete_ne; [done|apply lock_key_not_completed].
  - destruct (markSegmentCompleted_frame m (fileId i) (streamType i)
                (quality i) (streamIndex i) (segmentIndex i) s)
      as (_ & Hother & Hown).
    destruct (decide (completedPrefix +:+ key
                      = completedPrefix +:+ getSegmentKey (fileId i)
                          (streamType i) (quality i) (streamIndex i)
                          (segmentIndex i))) as [->|Hne].
    + destruct Hown as [Hsame|Hnew]; [by left|right; eauto].
    + left. apply Hother; [done|apply completed_key_not_status].
Qed.

(** X12. The protocol never clears a completion record: once the marker
    is stored under a segment's completion key it is still stored there,
    with the marker as its value, after any sequence of steps by any
    managers and claims; only its expiry can make it invisible. *)
Theorem completion_record_is_never_cleared
    (sts : list step) (s : server) key e :
  db s !! (completedPrefix +:+ key) = Some e →
  e_val e = VText "true" →
  (∃ e', db (run_steps sts s) !! (completedPrefix +:+ key) = Some e'
         ∧ e_val e' = VText "true")
  ∧ (live (run_steps sts s) (completedPrefix +:+ key) = Some (VText "true")
     ∨ live (run_steps sts s) (completedPrefix +:+ key) = None).
Proof.
  intros He Hv.
  assert (Hkept : ∃ e', db (run_steps sts s) !! (completedPrefix +:+ key)
                        = Some e' ∧ e_val e' = VText "true").
  { revert s e He Hv. induction sts as [|st sts IH]; intros s e He Hv.
    - by exists e.
    - simpl.
      destruct (step_on_completed_key st s key) as [Hsame|[dl Hnew]].
      + apply (IH _ e); [by rewrite Hsame|done].
      + by apply (IH _ (Entry (VText "true") dl)). }
  split; [exact Hkept|].
  destruct Hkept as (e' & He' & Hv').
  rewrite (live_of_entry _ _ _ He'), Hv'.
  destruct (clock (run_steps sts s) <=? e_deadline e'); [by left|by right].
Qed.

Lemma completion_record_is_never_cleared_witness :
  live (run_steps
          [StepClaim Scenario.worker_b 2000
             (Identity "42" "video" "1080p" 0 3);
           StepRelease Scenario.worker_b 62000
             (Identity "42" "video" "1080p" 0 3);
           StepTime 5000]
          (markSegmentCompleted Scenario.worker_a "42" "video" "1080p" 0 3
             Scenario.empty_server).2)
       (completedPrefix +:+ getSegmentKey "42" "video" "1080p" 0 3)
  = Some (VText "true").
Proof.
  destruct (completion_record_is_never_cleared
              [StepClaim Scenario.worker_b 2000
                 (Identity "42" "video" "1080p" 0 3);
               StepRelease Scenario.worker_b 62000
                 (Identity "42" "video" "1080p" 0 3);
               StepTime 5000]
              (markSegmentCompleted Scenario.worker_a
                 "42" "video" "1080p" 0 3 Scenario.empty_server).2
              (getSegmentKey "42" "video" "1080p" 0 3)
              (Entry (VText "true") 604801000))
    as [_ [Hlive|Hgone]].
  - reflexivity.
  - reflexivity.
  - exact Hlive.
  - vm_compute in Hgone. discriminate.
Defined.

(** X13. On a server that only the protocol has written to, the two
    scripts never fail: after any sequence of steps from an empty
    keyspace, [extend] of an acquired claim of a manager with a positive
    lease returns a boolean and [release] returns. *)
Theorem lease_operations_never_throw
    (sts : list step) (start : Z) (m : manager) (expiresAt now : Z)
    (i : identity) :
  0 < defaultTTL m →
  (∃ b s',
     Interfaces.extend (acquired_claim m expiresAt i) now
       (run_steps sts {| db := ∅; clock := start; log := [] |})
     = (Return b, s'))
  ∧ (∃ s',
       Interfaces.release (acquired_claim m expiresAt i)
         (run_steps sts {| db := ∅; clock := start; log := [] |})
       = (Return tt, s')).
Proof.
  intros Httl.
  pose proof (run_steps_keep_records sts _ (empty_keyspace_records start []))
    as Hwf.
  unfold acquired_claim.
  destruct (held_or_not _
              (getSegmentKey (fileId i) (streamType i) (quality i)
                 (streamIndex i) (segmentIndex i)) (workerId m) Hwf)
    as [Hheld|Hnot].
  - rewrite release_on_held by done.
    destruct Hheld as (o & Hl & Ho).
    rewrite (extend_on_held _ _ _ _ _ _ o) by done. eauto.
  - rewrite release_on_not_held, extend_on_not_held by done. eauto.
Qed.

Lemma lease_operations_never_throw_witness :
  ∃ b s',
    Interfaces.extend
      (acquired_claim Scenario.worker_a 61000
         (Identity "42" "video" "1080p" 0 3)) 2000
      (run_steps
         [StepMark Scenario.worker_b (Identity "42" "video" "1080p" 0 3)]
         {| db := ∅; clock := 1000; log := [] |})
    = (Return b, s').
Proof.
  destruct (lease_operations_never_throw
              [StepMark Scenario.worker_b (Identity "42" "video" "1080p" 0 3)]
              1000 Scenario.worker_a 61000 2000
              (Identity "42" "video" "1080p" 0 3)) as [Hext _].
  - reflexivity.
  - exact Hext.
Defined.

(** Equal segment keys come from equal fields. *)
Lemma getSegmentKey_inj f1 t1 q1 x1 y1 f2 t2 q2 x2 y2 :
  colon_free f1 = true → colon_free t1 = true → colon_free q1 = true →
  colon_free f2 = true → colon_free t2 = true → colon_free q2 = true →
  getSegmentKey f1 t1 q1 x1 y1 = getSegmentKey f2 t2 q2 x2 y2 →
  (f1, t1, q1, x1, y1) = (f2, t2, q2, x2, y2).
Proof.
  intros Hf1 Ht1 Hq1 Hf2 Ht2 Hq2. unfold getSegmentKey. intros H.
  apply colon_split in H as [-> H]; [|done..].
  apply colon_split in H as [-> H]; [|done..].
  apply colon_split in H as [-> H]; [|done..].
  apply colon_split in H as [Hx Hy]; [|apply colon_free_string_of_Z..].
  apply string_of_Z_inj in Hx, Hy. by subst.
Qed.

(** X14. Segments do not interfere: for two different identities without
    [':'] in their textual fields, the lock keys differ, a claim attempt
    on the first leaves the lock of the second as it was, and so a
    manager with a positive lease still acquires the second when its lock
    was free. *)
Theorem distinct_segments_do_not_interfere
    (a b : manager) (now1 now2 : Z)
    f1 t1 q1 x1 y1 f2 t2 q2 x2 y2 (s : server) :
  colon_free f1 = true → colon_free t1 = true → colon_free q1 = true →
  colon_free f2 = true → colon_free t2 = true → colon_free q2 = true →
  (f1, t1, q1, x1, y1) ≠ (f2, t2, q2, x2, y2) →
  lockPrefix +:+ getSegmentKey f1 t1 q1 x1 y1
    ≠ lockPrefix +:+ getSegmentKey f2 t2 q2 x2 y2
  ∧ live (claimSegment a now1 f1 t1 q1 x1 y1 s).2
         (lockPrefix +:+ getSegmentKey f2 t2 q2 x2 y2)
    = live s (lockPrefix +:+ getSegmentKey f2 t2 q2 x2 y2)
  ∧ (0 < defaultTTL b →
     live s (lockPrefix +:+ getSegmentKey f2 t2 q2 x2 y2) = None →
     ∃ cb s2,
       claimSegment b now2 f2 t2 q2 x2 y2
         (claimSegment a now1 f1 t1 q1 x1 y1 s).2 = (Return cb, s2)
       ∧ Interfaces.acquired cb = true).
Proof.
  intros Hf1 Ht1 Hq1 Hf2 Ht2 Hq2 Hdiff.
  assert (Hkeys : lockPrefix +:+ getSegmentKey f1 t1 q1 x1 y1
                  ≠ lockPrefix +:+ getSegmentKey f2 t2 q2 x2 y2).
  { intros Heq. apply String.app_inj in Heq.
    by apply getSegmentKey_inj in Heq. }
  destruct (claimSegment_frame a now1 f1 t1 q1 x1 y1 s) as [Hclock Hother].
  assert (Hlive : live (claimSegment a now1 f1 t1 q1 x1 y1 s).2
                    (lockPrefix +:+ getSegmentKey f2 t2 q2 x2 y2)
                  = live s (lockPrefix +:+ getSegmentKey f2 t2 q2 x2 y2)).
  { apply live_same_entry; [|done].
    apply Hother; [by apply not_eq_sym|apply lock_key_not_status]. }
  split; [exact Hkeys|]. split; [exact Hlive|].
  intros Hb Hfree. rewrite claim_free by (by rewrite ?Hlive).
  eexists _, _. split; reflexivity.
Qed.

Lemma distinct_segments_do_not_interfere_witness :
  ∃ cb s2,
    claimSegment Scenario.worker_b 1500 "42" "video" "1080p" 0 4
      Scenario.claimed_server = (Return cb, s2)
    ∧ Interfaces.acquired cb = true.
Proof.
  destruct (distinct_segments_do_not_interfere
              Scenario.worker_a Scenario.worker_b 1000 1500
              "42" "video" "1080p" 0 3 "42" "video" "1080p" 0 4
              Scenario.empty_server)
    as (_ & _ & Hclaim); [reflexivity..|discriminate|].
  apply Hclaim; reflexivity.
Defined.

End ProtocolInvariants.

(** * Further properties of the subscriber pool *)

Section SubscriberLifecycle.
Import KeyNamer Subscribers ManagerPool PoolLogic.

(** A new subscriber is the next client; it is open if its connection
    succeeds, and closed and still unpooled if not. *)
Lemma newSubscriber_effect (s : state) :
  (∃ s', newSubscriber s = (Return (next_handle s), s')
     ∧ is_open_in s' (next_handle s) = true)
  ∨ (∃ err s', newSubscriber s = (Throw err, s')
       ∧ is_open_in s' (next_handle s) = false).
Proof.
  unfold newSubscriber, duplicate, connect.
  unfold mbind, M_bind, emit, modify, network, set_open, with_connections,
    is_open_in. simpl.
  destruct (faults s) as [|[err|] fs]; simpl.
  - left. eexists. split; [reflexivity|]. simpl.
    by rewrite !lookup_insert_eq.
  - right. eexists _, _. split; [reflexivity|]. simpl.
    by rewrite lookup_insert_eq.
  - left. eexists. split; [reflexivity|]. simpl.
    by rewrite !lookup_insert_eq.
Qed.

Lemma newSubscriber_trace (s : state) :
  trace (newSubscriber s).2 = EvConnect (next_handle s) :: trace s.
Proof.
  unfold newSubscriber, duplicate, connect.
  unfold mbind, M_bind, emit, modify, network, set_open, with_connections.
  simpl. by destruct (faults s) as [|[err|] fs].
Qed.

Lemma getSubscriber_run (s : state) :
  getSubscriber s =
    match last (subscriberPool s) with
    | Some h =>
        if is_open_in s h then (Return h, with_pool (@removelast handle) s)
        else newSubscriber (with_pool (@removelast handle) s)
    | None => newSubscriber (with_pool (@removelast handle) s)
    end.
Proof.
  unfold getSubscriber, pool_pop, mbind, M_bind, is_open, gets. simpl.
  destruct (last (subscriberPool s)) as [h|]; [|done].
  change (is_open_in (with_pool (@removelast handle) s) h)
    with (is_open_in s h).
  by destruct (is_open_in s h).
Qed.

(** X15. [getSubscriber] never hands out a closed client. When it
    returns, the handle is open, the pool has lost its last entry and
    nothing else, and the handle is either that entry, reused without any
    call to the network, or a new client that was just connected. When it
    throws, the pooled entry is gone all the same. *)
Theorem getSubscriber_hands_out_open (s : state) :
  subscriberPool (getSubscriber s).2 = removelast (subscriberPool s)
  ∧ disposed (getSubscriber s).2 = disposed s
  ∧ ∀ h, (getSubscriber s).1 = Return h →
      is_open_in (getSubscriber s).2 h = true
      ∧ ((last (subscriberPool s) = Some h
          ∧ trace (getSubscriber s).2 = trace s)
         ∨ (h = next_handle s
            ∧ trace (getSubscriber s).2 = EvConnect h :: trace s)).
Proof.
  rewrite getSubscriber_run.
  pose proof (keeps_newSubscriber (with_pool (@removelast handle) s)) as Hk.
  pose proof (newSubscriber_trace (with_pool (@removelast handle) s)) as Ht.
  injection Hk as Hp Hd.
  assert (Hfresh : ∀ h,
    (newSubscriber (with_pool (@removelast handle) s)).1 = Return h →
    is_open_in (newSubscriber (with_pool (@removelast handle) s)).2 h = true
    ∧ h = next_handle s).
  { intros h Hret.
    destruct (newSubscriber_effect (with_pool (@removelast handle) s))
      as [(s' & Hrun & Hopen)|(err & s' & Hrun & _)];
      rewrite Hrun in Hret |- *; simpl in *; [|discriminate].
    injection Hret as <-. by split. }
  destruct (last (subscriberPool s)) as [h0|] eqn:Hlast.
  - destruct (is_open_in s h0) eqn:Hopen; simpl.
    + split; [done|]. split; [done|]. intros h [= <-].
      split; [done|]. by left.
    + split; [done|]. split; [done|]. intros h Hret.
      destruct (Hfresh h Hret) as [Ho ->]. split; [done|]. by right.
  - split; [done|]. split; [done|]. intros h Hret.
    destruct (Hfresh h Hret) as [Ho ->]. split; [done|]. by right.
Qed.

Lemma getSubscriber_hands_out_open_witness :
  is_open_in (getSubscriber Scenario.two_pooled).2 1%nat = true
  ∧ subscriberPool (getSubscriber Scenario.two_pooled).2 = [0%nat].
Proof.
  destruct (getSubscriber_hands_out_open Scenario.two_pooled)
    as (Hpool & _ & Hopen).
  destruct (Hopen 1%nat) as [Ho _]; [reflexivity|].
  split; [exact Ho|]. rewrite Hpool. reflexivity.
Defined.

Lemma with_pool_id (s : state) :
  with_pool (λ _, subscriberPool s) s = s.
Proof. by destruct s. Qed.

(** X16. The pool is a stack: an open client released to a manager that
    is not disposed and has room is the next one that [getSubscriber]
    hands out, and the manager is then exactly as before the release. *)
Theorem release_then_get_round_trip (h : handle) (s : state) :
  disposed s = false →
  is_open_in s h = true →
  (length (subscriberPool s) < poolSize)%nat →
  getSubscriber (releaseSubscriber h s).2 = (Return h, s).
Proof.
  intros Hd Ho Hlen.
  rewrite (release_pooled h s Hd Ho Hlen). simpl.
  rewrite getSubscriber_run. simpl.
  rewrite last_snoc.
  change (is_open_in (with_pool (λ pool, pool ++ [h]) s) h)
    with (is_open_in s h).
  rewrite Ho. f_equal.
  unfold with_pool. simpl. rewrite removelast_last. by destruct s.
Qed.

Lemma release_then_get_round_trip_witness :
  getSubscriber (releaseSubscriber 3%nat Scenario.seven_handed_out).2
  = (Return 3%nat, Scenario.seven_handed_out).
Proof.
  apply release_then_get_round_trip; [reflexivity|reflexivity|].
  simpl. unfold poolSize. lia.
Defined.

(** The first half of the unsubscribe function: it never throws, and it
    changes neither the manager's fields nor which clients are open. *)
Lemma unsubscribe_phase h channel (s : state) :
  ∃ s1,
    try_catch
      (opened ← is_open h;
       if (opened : bool) then unsubscribe h channel else mret tt)
      (λ _, console_error) s = (Return tt, s1)
    ∧ fields s1 = fields s
    ∧ (∀ h', is_open_in s1 h' = is_open_in s h')
    ∧ (is_open_in s h = false → s1 = s).
Proof.
  unfold try_catch. unfold mbind at 1. unfold M_bind, is_open, gets.
  destruct (is_open_in s h) eqn:Hopen.
  - unfold unsubscribe, console_error.
    unfold mbind, M_bind, emit, modify, is_open, gets, network, throw,
      with_connections. simpl.
    change (is_open_in _ h) with (is_open_in s h). rewrite Hopen.
    assert (Halter : ∀ h' f,
      (∀ c, isOpen (f c) = isOpen c) →
      match alter f h (connections s) !! h' with
      | Some c => isOpen c
      | None => false
      end = is_open_in s h').
    { intros h' f Hf. unfold is_open_in.
      destruct (decide (h' = h)) as [->|Hne].
      - rewrite lookup_alter_eq.
        destruct (connections s !! h) as [c|]; simpl; [apply Hf|done].
      - by rewrite lookup_alter_ne. }
    destruct (faults s) as [|[err|] fs]; simpl.
    + eexists. split; [reflexivity|]. split; [done|].
      split; [|intros; congruence].
      intros h'. unfold is_open_in at 1. simpl. by apply Halter.
    + eexists. split; [reflexivity|]. split; [done|].
      split; [done|intros; congruence].
    + eexists. split; [reflexivity|]. split; [done|].
      split; [|intros; congruence].
      intros h'. unfold is_open_in at 1. simpl. by apply Halter.
  - exists s. by repeat split.
Qed.

Lemma unsubscribeFn_run h channel (s : state) :
  ∃ s1,
    unsubscribeFn h channel s = (Return tt, (releaseSubscriber h s1).2)
    ∧ fields s1 = fields s
    ∧ (∀ h', is_open_in s1 h' = is_open_in s h')
    ∧ (is_open_in s h = false → s1 = s).
Proof.
  destruct (unsubscribe_phase h channel s) as (s1 & Hrun & Hf & Ho & Hc).
  exists s1. split; [|done].
  unfold unsubscribeFn, try_finally. rewrite Hrun.
  pose proof (releaseSubscriber_returns h s1) as Hret.
  destruct (releaseSubscriber h s1) as [r s2]. simpl in *. by rewrite Hret.
Qed.

(** X17. The function returned by a subscription never throws and always
    gives its client back: afterwards the handle is in the pool or
    closed. On a client that is already closed it does not call
    [unsubscribe] at all; it only calls [disconnect]. *)
Theorem unsubscribeFn_always_releases h channel (s : state) :
  (unsubscribeFn h channel s).1 = Return tt
  ∧ (h ∈ subscriberPool (unsubscribeFn h channel s).2
     ∨ is_open_in (unsubscribeFn h channel s).2 h = false)
  ∧ (is_open_in s h = false →
     trace (unsubscribeFn h channel s).2 = EvDisconnect h :: trace s
     ∧ fields (unsubscribeFn h channel s).2 = fields s).
Proof.
  destruct (unsubscribeFn_run h channel s) as (s1 & -> & Hf & Ho & Hc).
  simpl. split; [done|].
  rewrite releaseSubscriber_run.
  destruct (disconnect_ignored h s1) as (s2 & -> & Hf2 & Ht2 & Hc2 & _).
  split.
  - destruct (disposed s1 || negb (is_open_in s1 h)); [by right|].
    destruct (length (subscriberPool s1) <? poolSize)%nat; [|by right].
    left. simpl. apply elem_of_app. right. apply list_elem_of_here.
  - intros Hclosed. rewrite (Ho h), Hclosed, orb_true_r. simpl.
    rewrite Ht2, Hf2. by rewrite (Hc Hclosed).
Qed.

Lemma unsubscribeFn_always_releases_witness :
  trace (unsubscribeFn 9%nat Scenario.segment_channel
           Scenario.two_pooled).2
  = EvDisconnect 9%nat :: trace Scenario.two_pooled.
Proof.
  destruct (unsubscribeFn_always_releases 9%nat Scenario.segment_channel
              Scenario.two_pooled) as (_ & _ & Hclosed).
  apply Hclosed. reflexivity.
Defined.

(** X18. Calling the function returned by a subscription twice pools its
    client twice: on a manager that is not disposed, with an open client
    and room for two, the pool ends with two entries for the same handle,
    and the next two [getSubscriber] calls hand out that one client. *)
Theorem unsubscribing_twice_pools_twice h channel (s : state) :
  disposed s = false →
  is_open_in s h = true →
  (length (subscriberPool s) + 2 ≤ poolSize)%nat →
  subscriberPool
    (unsubscribeFn h channel (unsubscribeFn h channel s).2).2
  = subscriberPool s ++ [h; h]
  ∧ ∃ s3 s4,
      getSubscriber
        (unsubscribeFn h channel (unsubscribeFn h channel s).2).2
      = (Return h, s3)
      ∧ getSubscriber s3 = (Return h, s4).
Proof.
  intros Hd Ho Hlen.
  destruct (unsubscribeFn_run h channel s) as (s1 & -> & Hf1 & Ho1 & _).
  injection Hf1 as Hp1 Hd1. simpl.
  rewrite (release_pooled h s1) by (rewrite ?Ho1, ?Hp1, ?Hd1; (done || lia)).
  simpl.
  destruct (unsubscribeFn_run h channel
              (with_pool (λ pool, pool ++ [h]) s1))
    as (s2 & -> & Hf2 & Ho2 & _).
  injection Hf2 as Hp2 Hd2. simpl in Hp2, Hd2. simpl.
  assert (Hopen2 : is_open_in s2 h = true).
  { rewrite Ho2.
    change (is_open_in (with_pool (λ pool, pool ++ [h]) s1) h)
      with (is_open_in s1 h).
    by rewrite Ho1. }
  rewrite (release_pooled h s2).
  - simpl. rewrite Hp2, Hp1, <- app_assoc. simpl. split; [done|].
    rewrite getSubscriber_run. simpl.
    rewrite Hp2, Hp1, <- app_assoc. simpl.
    rewrite (app_assoc _ [h] [h]), last_snoc.
    change (is_open_in (with_pool (λ pool, pool ++ [h]) s2) h)
      with (is_open_in s2 h).
    rewrite Hopen2. eexists _, _. split; [reflexivity|].
    rewrite getSubscriber_run. simpl.
    rewrite Hp2, Hp1, <- app_assoc. simpl.
    rewrite (app_assoc _ [h] [h]), removelast_last, last_snoc.
    change (is_open_in (with_pool (@removelast handle) _) h)
      with (is_open_in s2 h).
    rewrite Hopen2. reflexivity.
  - by rewrite Hd2, Hd1.
  - exact Hopen2.
  - rewrite Hp2, Hp1, length_app. simpl. lia.
Qed.

End SubscriberLifecycle.

Section SubscriberLifecycleRuns.
Import KeyNamer Subscribers ManagerPool PoolLogic.

Lemma unsubscribing_twice_pools_twice_witness :
  subscriberPool
    (unsubscribeFn 2%nat Scenario.segment_channel
       (unsubscribeFn 2%nat Scenario.segment_channel
          Scenario.seven_handed_out).2).2
  = [2; 2]%nat.
Proof.
  destruct (unsubscribing_twice_pools_twice 2%nat Scenario.segment_channel
              Scenario.seven_handed_out) as [Hpool _].
  - reflexivity.
  - reflexivity.
  - simpl. unfold poolSize. lia.
  - exact Hpool.
Defined.

End SubscriberLifecycleRuns.

(** ** Disposal, again *)

Section DisposalAgain.
Import KeyNamer Subscribers ManagerPool PoolLogic.

Lemma shut_state_fixed (s : state) :
  fields s = ([], true) →
  with_pool (λ _, []) (with_disposed true s) = s.
Proof.
  intros Hf. destruct s. simpl in *. injection Hf as -> ->. done.
Qed.

(** X19. [dispose] may be called again: a second call returns and changes
    nothing at all; in particular it calls [disconnect] on no client. *)
Theorem dispose_is_idempotent (s : state) :
  dispose (dispose s).2 = (Return tt, (dispose s).2).
Proof.
  pose proof (dispose_fields s) as Hf.
  rewrite (dispose_run (dispose s).2).
  rewrite (shut_state_fixed _ Hf).
  injection Hf as -> _. reflexivity.
Qed.

(** A subscription that succeeds: the handle came from [getSubscriber],
    [subscribe] returned on it, and the function handed back is the
    unsubscribe function of that handle and channel. *)
Lemma subscribe_success_inv f t q x y cb (s : state) u s2 :
  subscribeToSegmentComplete f t q x y cb s = (Return u, s2) →
  ∃ h s1,
    getSubscriber s = (Return h, s1)
    ∧ subscribe h (channelPrefix +:+ getSegmentKey f t q x y)
        (completion_listener cb) s1 = (Return tt, s2)
    ∧ u = unsubscribeFn h (channelPrefix +:+ getSegmentKey f t q x y).
Proof.
  unfold subscribeToSegmentComplete.
  unfold mbind at 1. unfold M_bind.
  destruct (getSubscriber s) as [[h|err] s1]; [|discriminate].
  unfold mbind at 1. unfold M_bind, try_catch.
  destruct (subscribe h (channelPrefix +:+ getSegmentKey f t q x y)
              (completion_listener cb) s1) as [[[]|err] s2'] eqn:Hsub.
  - intros [= <- <-]. by exists h, s1.
  - unfold mbind at 1. unfold M_bind.
    pose proof (releaseSubscriber_returns h s2') as Hret.
    destruct (releaseSubscriber h s2') as [r s3]. simpl in Hret.
    rewrite Hret. discriminate.
Qed.

(** X20. The manager can still be used after [dispose], and then keeps
    nothing: a subscription made on a disposed manager with an empty pool
    runs on a new client, and its unsubscribe function closes that client
    and leaves the pool empty. *)
Theorem use_after_dispose_keeps_nothing
    f t q x y cb (s : state) u s2 :
  fields s = ([], true) →
  subscribeToSegmentComplete f t q x y cb s = (Return u, s2) →
  u = unsubscribeFn (next_handle s)
        (channelPrefix +:+ getSegmentKey f t q x y)
  ∧ is_open_in s2 (next_handle s) = true
  ∧ (u s2).1 = Return tt
  ∧ is_open_in (u s2).2 (next_handle s) = false
  ∧ fields (u s2).2 = ([], true).
Proof.
  intros Hf Hrun.
  destruct (subscribe_success_inv _ _ _ _ _ _ _ _ _ Hrun)
    as (h & s1 & Hget & Hsub & ->).
  pose proof Hf as Hf'. injection Hf' as Hp Hd.
  rewrite getSubscriber_run, Hp in Hget. simpl in Hget.
  pose proof (keeps_newSubscriber (with_pool (@removelast handle) s)) as Hk.
  rewrite Hget in Hk. injection Hk as Hp1 Hd1.
  simpl in Hp1, Hd1. rewrite Hp in Hp1. simpl in Hp1.
  assert (h = next_handle s) as ->.
  { destruct (newSubscriber_effect (with_pool (@removelast handle) s))
      as [(s' & Hnew & _)|(err & s' & Hnew & _)];
      rewrite Hnew in Hget; [|discriminate].
    by injection Hget as <- _. }
  destruct (subscribe_ok_invoked _ _ _ _ _ Hsub) as (Ho2 & Hf2 & _).
  injection Hf2 as Hp2 Hd2.
  split; [done|]. split; [exact Ho2|].
  destruct (unsubscribeFn_run (next_handle s)
              (channelPrefix +:+ getSegmentKey f t q x y) s2)
    as (s3 & -> & Hf3 & _).
  injection Hf3 as Hp3 Hd3. simpl. split; [done|].
  destruct (release_when_disposed (next_handle s) s3)
    as (s4 & -> & Hf4 & _ & Hc4); [by rewrite Hd3, Hd2, Hd1|].
  simpl. split; [exact Hc4|].
  rewrite Hf4. unfold fields.
  by rewrite Hp3, Hp2, Hp1, Hd3, Hd2, Hd1, Hd.
Qed.

Lemma use_after_dispose_keeps_nothing_witness :
  is_open_in
    (unsubscribeFn 2%nat Scenario.segment_channel
       (subscribeToSegmentComplete "42" "video" "1080p" 0 3 7%nat
          (dispose Scenario.two_pooled).2).2).2 2%nat = false.
Proof.
  destruct (use_after_dispose_keeps_nothing "42" "video" "1080p" 0 3 7%nat
              (dispose Scenario.two_pooled).2
              (unsubscribeFn 2%nat Scenario.segment_channel)
              (subscribeToSegmentComplete "42" "video" "1080p" 0 3 7%nat
                 (dispose Scenario.two_pooled).2).2)
    as (_ & _ & _ & Hclosed & _).
  - reflexivity.
  - reflexivity.
  - exact Hclosed.
Defined.

End DisposalAgain.

(** ** Publishing and listening *)

Section Notification.
Import Redis KeyNamer Subscribers ManagerPool PoolLogic.



End Notification.

(** ** Claiming what is already completed *)

Section ReclaimCompleted.
Import Redis KeyNamer Manager Ownership.

(** X22. [claimSegment] does not look at the completion record: a segment
    that is marked completed and whose lock is free is acquired like any
    other, and the claim writes ['processing'] over the status
    ['completed'] while [isSegmentCompleted] still answers [true]. *)
Theorem completed_segment_can_be_claimed
    (m b m' : manager) (now : Z) f t q x y (s : server) :
  0 < completedSegmentTTL m →
  0 < defaultTTL b →
  live s (lockPrefix +:+ getSegmentKey f t q x y) = None →
  ∃ s1 cb s2,
    markSegmentCompleted m f t q x y s = (Return tt, s1)
    ∧ claimSegment b now f t q x y s1 = (Return cb, s2)
    ∧ Interfaces.acquired cb = true
    ∧ (isSegmentCompleted m' f t q x y s2).1 = Return true
    ∧ (getSegmentStatus m' f t q x y s2).1
      = Return (Some (VText "processing")).
Proof.
  intros Hc Hb Hfree.
  destruct (marked_entries m f t q x y s Hc)
    as (s1 & Hmark & Hdone & _ & Hclock & Hother).
  assert (Hfree1 : live s1 (lockPrefix +:+ getSegmentKey f t q x y) = None).
  { rewrite <- Hfree. apply live_same_entry; [|done].
    apply Hother; [apply lock_key_not_completed|apply lock_key_not_status]. }
  destruct (claimSegment b now f t q x y s1) as [r2 s2] eqn:Hrun.
  pose proof Hrun as Hrun'. rewrite claim_free in Hrun' by done.
  injection Hrun' as <- _.
  destruct (claimed_entries _ _ _ _ _ _ _ _ _ _ Hrun eq_refl)
    as (_ & Hstatus & Hother2).
  destruct (claim_acquired_inv _ _ _ _ _ _ _ _ _ _ Hrun eq_refl)
    as (_ & _ & _ & _ & Hclock2).
  exists s1. eexists _, s2. split; [exact Hmark|].
  split; [exact Hrun|]. split; [reflexivity|].
  rewrite isSegmentCompleted_run, getSegmentStatus_run. simpl.
  assert (Hdone2 : db s2 !! (completedPrefix +:+ getSegmentKey f t q x y)
                   = Some (Entry (VText "true")
                             (clock s + completedSegmentTTL m))).
  { rewrite Hother2; [done| |apply completed_key_not_status].
    apply not_eq_sym, lock_key_not_completed. }
  rewrite (live_of_entry s2 _ _ Hdone2), (live_of_entry s2 _ _ Hstatus).
  simpl. rewrite Hclock2, Hclock.
  destruct (Z.leb_spec (clock s) (clock s + completedSegmentTTL m)); [|lia].
  destruct (Z.leb_spec (clock s) (clock s + defaultTTL b * 2)); [|lia].
  by rewrite bool_decide_true.
Qed.

Lemma completed_segment_can_be_claimed_witness :
  ∃ s1 cb s2,
    markSegmentCompleted Scenario.worker_a "42" "video" "1080p" 0 3
      Scenario.empty_server = (Return tt, s1)
    ∧ claimSegment Scenario.worker_b 1000 "42" "video" "1080p" 0 3 s1
      = (Return cb, s2)
    ∧ Interfaces.acquired cb = true
    ∧ (getSegmentStatus Scenario.worker_a "42" "video" "1080p" 0 3 s2).1
      = Return (Some (VText "processing")).
Proof.
  destruct (completed_segment_can_be_claimed Scenario.worker_a
              Scenario.worker_b Scenario.worker_a 1000
              "42" "video" "1080p" 0 3 Scenario.empty_server)
    as (s1 & cb & s2 & Hmark & Hrun & Hacq & _ & Hstatus);
    [reflexivity..|].
  exists s1, cb, s2. by repeat split.
Defined.

End ReclaimCompleted.
